(** * WhatsApp message scheduler: scheduling and dispatch engine

    A shallow embedding of the scheduling server ([server.js] and its
    WebSocket successor): the [scheduled_messages] table and the SQL
    statements run against it, the typing-delay model, the
    [POST /api/schedule], [PUT /api/scheduled/:id] and
    [DELETE /api/scheduled/...] handlers, and the cron dispatcher.

    Representation choices.
    - Instants are integers, milliseconds since the epoch.  The column
      [scheduled_time] holds the ISO-8601 UTC text of an instant
      ([toISOString]); it is represented by the instant itself, on which
      text order and time order agree.
    - [Math.random()] draws and the arithmetic of [calculateTypingDelay]
      are exact rationals in place of IEEE doubles.
    - The table is the list of its rows in rowid order, which is the order
      in which SQLite scans it when a statement has no [ORDER BY]. *)

From Stdlib Require Import ZArith QArith Qround List String Ascii Bool.
From Stdlib Require Import Lia Lra Psatz Permutation Sorted DecimalString.
Import ListNotations.

Local Open Scope string_scope.
Local Open Scope list_scope.
Local Open Scope Z_scope.

(** ** Typing-delay model *)

(** A value returned by [Math.random()]: a number in [0, 1). *)
Definition unit_draw (u : Q) : Prop := (0 <= u /\ u < 1)%Q.

(** [calculateTypingDelay(messageLength)], with its two [Math.random()]
    draws [u1] (typing-speed jitter) and [u2] (thinking time) made
    explicit. *)
Definition calculateTypingDelay (messageLength : Z) (u1 u2 : Q) : Z :=
  let baseCharsPerSecond := 3%Q in
  let variance := (1 # 2)%Q in
  let charsPerSecond :=
    (baseCharsPerSecond + (u1 * variance * 2 - variance))%Q in
  let baseDelay := ((inject_Z messageLength / charsPerSecond) * 1000)%Q in
  let thinkingTime := (1000 + u2 * 2000)%Q in
  Qfloor (baseDelay + thinkingTime).

(** ** Data model: the [scheduled_messages] table *)

(** One row of [scheduled_messages].  [created_at] is filled by the
    column default [CURRENT_TIMESTAMP]. *)
Record Row := mkRow {
  id : Z;
  phone_number : string;
  message : string;
  scheduled_time : Z;
  created_at : Z;
  sent : bool;
  batch_id : string
}.

(** The table: its rows in rowid order, and the [AUTOINCREMENT] counter
    SQLite keeps for it (the largest rowid ever handed out). *)
Record DB := mkDB {
  rows : list Row;
  sqlite_sequence : Z
}.

Definition empty_db : DB := mkDB [] 0.

Definition set_scheduled_time (t : Z) (r : Row) : Row :=
  mkRow (id r) (phone_number r) (message r) t (created_at r) (sent r) (batch_id r).

Definition set_sent (r : Row) : Row :=
  mkRow (id r) (phone_number r) (message r) (scheduled_time r) (created_at r)
        true (batch_id r).

(** A JSON value found where the handler expects a message text. *)
Inductive jsval : Type :=
| JStr (s : string)
| JNull.

(** [msg.length] *)
Definition js_length (v : jsval) : Z :=
  match v with
  | JStr s => Z.of_nat (String.length s)
  | JNull => 0
  end.

(** SQLite's [datetime(...)]: the instant cut down to whole seconds. *)
Definition datetime (t : Z) : Z := t / 1000.

(** ** The SQL statements *)

(** [INSERT INTO scheduled_messages (phone_number, message, scheduled_time,
    batch_id) VALUES (?, ?, ?, ?)].  The column [message] is [NOT NULL]:
    binding [null] makes the statement fail ([None]) and writes nothing.
    On success the new rowid is returned ([lastInsertRowid]). *)
Definition insert_message (now : Z) (phone : string) (msg : jsval)
    (t : Z) (batch : string) (d : DB) : option (DB * Z) :=
  match msg with
  | JNull => None
  | JStr s =>
      let rowid := sqlite_sequence d + 1 in
      Some (mkDB (rows d ++ [mkRow rowid phone s t (1000 * datetime now) false batch])
                 rowid,
            rowid)
  end.

(** [ORDER BY scheduled_time ASC] *)
Fixpoint insert_by_time (r : Row) (l : list Row) : list Row :=
  match l with
  | [] => [r]
  | x :: l' =>
      if scheduled_time r <=? scheduled_time x
      then r :: l
      else x :: insert_by_time r l'
  end.

Definition order_by_scheduled_time (l : list Row) : list Row :=
  fold_right insert_by_time [] l.

(** [SELECT * FROM scheduled_messages WHERE sent = 0
    ORDER BY scheduled_time ASC] *)
Definition select_pending (d : DB) : list Row :=
  order_by_scheduled_time (filter (fun r => negb (sent r)) (rows d)).

(** [WHERE id = ? AND sent = 0] *)
Definition pending_with_id (i : Z) (r : Row) : bool :=
  (id r =? i) && negb (sent r).

(** [WHERE batch_id = ? AND sent = 0] *)
Definition pending_in_batch (b : string) (r : Row) : bool :=
  String.eqb (batch_id r) b && negb (sent r).

(** [UPDATE scheduled_messages SET scheduled_time = ? WHERE id = ? AND
    sent = 0]; the second component is [result.changes]. *)
Definition update_scheduled_time (t : Z) (i : Z) (d : DB) : DB * nat :=
  (mkDB (map (fun r => if pending_with_id i r then set_scheduled_time t r else r)
             (rows d))
        (sqlite_sequence d),
   List.length (filter (pending_with_id i) (rows d))).

(** [DELETE FROM scheduled_messages WHERE id = ? AND sent = 0] *)
Definition delete_message (i : Z) (d : DB) : DB * nat :=
  (mkDB (filter (fun r => negb (pending_with_id i r)) (rows d))
        (sqlite_sequence d),
   List.length (filter (pending_with_id i) (rows d))).

(** [DELETE FROM scheduled_messages WHERE batch_id = ? AND sent = 0] *)
Definition delete_batch (b : string) (d : DB) : DB * nat :=
  (mkDB (filter (fun r => negb (pending_in_batch b r)) (rows d))
        (sqlite_sequence d),
   List.length (filter (pending_in_batch b) (rows d))).

(** [WHERE sent = 0 AND datetime(scheduled_time) <= datetime(?)] *)
Definition is_due (now : Z) (r : Row) : bool :=
  negb (sent r) && (datetime (scheduled_time r) <=? datetime now).

(** [SELECT * FROM scheduled_messages WHERE sent = 0 AND
    datetime(scheduled_time) <= datetime(?)]: no [ORDER BY], the rows come
    back in table order. *)
Definition select_due (now : Z) (d : DB) : list Row :=
  filter (is_due now) (rows d).

(** [UPDATE scheduled_messages SET sent = 1 WHERE id = ?] *)
Definition mark_sent (i : Z) (d : DB) : DB :=
  mkDB (map (fun r => if id r =? i then set_sent r else r) (rows d))
       (sqlite_sequence d).

(** ** Server state *)

(** What [broadcast] pushes to the connected observers. *)
Inductive WsEvent : Type :=
| WsScheduled (data : list Row).

(** One call of [client.sendMessage(chatId, msg.message)] made by the
    dispatcher for the entry [call_row], and whether it resolved
    ([call_ok = true]) or rejected. *)
Record SendCall := mkCall {
  call_row : Row;
  call_chat : string;
  call_ok : bool
}.

Record World := mkWorld {
  db : DB;
  isReady : bool;
  wsLog : list WsEvent;
  outbox : list SendCall
}.

Definition initial_world : World := mkWorld empty_db false [] [].

Definition with_db (d : DB) (w : World) : World :=
  mkWorld d (isReady w) (wsLog w) (outbox w).

(** [broadcast({ type: 'scheduled', data: allScheduled })] with
    [allScheduled] read from the table at that moment. *)
Definition broadcast_scheduled (w : World) : World :=
  mkWorld (db w) (isReady w)
          (wsLog w ++ [WsScheduled (select_pending (db w))]) (outbox w).

Definition record_call (c : SendCall) (w : World) : World :=
  mkWorld (db w) (isReady w) (wsLog w) (outbox w ++ [c]).

Inductive Response : Type :=
| Scheduled200 (count : nat) (ids : list Z)
| Success200
| Status400 (error : string)
| Status404 (error : string)
| Status500 (error : string).

(** How a block of statements ends: normally, or by a thrown exception. *)
Inductive completion (A : Type) : Type :=
| Normal (a : A)
| Thrown (error : string).
Arguments Normal {A} a.
Arguments Thrown {A} error.

(** ** Batch scheduler: [POST /api/schedule] *)

(** The [scheduledTime] field of a request body as [new Date(...)] sees
    it: absent (or any falsy value), text that does not parse (an invalid
    [Date]), or an instant. *)
Inductive TimeArg : Type :=
| TimeAbsent
| TimeInvalid
| TimeAt (ms : Z).

(** The body of [POST /api/schedule].  An absent field and an empty one
    take the same branch of the handler's [!field] tests, and are both
    the empty value here. *)
Record ScheduleReq := mkReq {
  phoneNumber : string;
  messages : list jsval;
  scheduledTime : TimeArg
}.

(** What the handler reads from its surroundings: the clock, the text
    [Math.random().toString(36).substr(2, 9)] that ends the batch id, and
    the later [Math.random()] draws in the order they are taken. *)
Record Env := mkEnv {
  clock : Z;
  tag : string;
  rnd : nat -> Q
}.

(** [Date.now().toString()] *)
Definition decimal (n : Z) : string := NilZero.string_of_int (Z.to_int n).

Definition make_batch_id (e : Env) : string :=
  String.append (decimal (clock e)) (tag e).

(** [new Date(scheduledTime)]: [None] is the invalid date. *)
Definition new_Date (a : TimeArg) : option Z :=
  match a with
  | TimeAt ms => Some ms
  | _ => None
  end.

(** [!scheduledTime] *)
Definition time_falsy (a : TimeArg) : bool :=
  match a with
  | TimeAbsent => true
  | _ => false
  end.

(** [!s] for a string [s] *)
Definition string_falsy (s : string) : bool :=
  match s with
  | EmptyString => true
  | _ => false
  end.

(** [scheduledDate <= new Date()]; a comparison with the invalid date is
    false. *)
Definition date_not_after (scheduledDate : option Z) (now : Z) : bool :=
  match scheduledDate with
  | Some t => t <=? now
  | None => false
  end.

(** The [messages.forEach((msg, index) => ...)] loop.  [index] counts the
    messages already handled; the two draws of the [index]-th call of
    [calculateTypingDelay] are [rnd (2 * index)] and [rnd (2 * index + 1)].
    [toISOString()] throws on the invalid date before the insert runs; a
    failing insert throws too.  Rows written before a throw stay in the
    table. *)
Fixpoint forEach_schedule (e : Env) (phone : string) (scheduledDate : option Z)
    (batchId : string) (msgs : list jsval) (index : nat)
    (cumulativeDelay : Z) (insertedIds : list Z) (d : DB)
    : DB * completion (list Z) :=
  match msgs with
  | [] => (d, Normal insertedIds)
  | msg :: rest =>
      match scheduledDate with
      | None => (d, Thrown "Invalid time value")
      | Some base =>
          let msgScheduledTime := base + cumulativeDelay in
          match insert_message (clock e) phone msg msgScheduledTime batchId d with
          | None =>
              (d, Thrown "NOT NULL constraint failed: scheduled_messages.message")
          | Some (d', rowid) =>
              let cumulativeDelay' :=
                match rest with
                | [] => cumulativeDelay
                | _ :: _ =>
                    cumulativeDelay
                    + calculateTypingDelay (js_length msg)
                        (rnd e (2 * index)) (rnd e (2 * index + 1))
                end in
              forEach_schedule e phone scheduledDate batchId rest (S index)
                cumulativeDelay' (insertedIds ++ [rowid]) d'
          end
      end
  end.

(** [app.post('/api/schedule', ...)] of the WebSocket server. *)
Definition post_schedule (e : Env) (req : ScheduleReq) (w : World)
    : Response * World :=
  if string_falsy (phoneNumber req)
     || (Nat.eqb (List.length (messages req)) 0)
     || time_falsy (scheduledTime req)
  then (Status400 "Missing required fields", w)
  else
    let scheduledDate := new_Date (scheduledTime req) in
    if date_not_after scheduledDate (clock e)
    then (Status400 "Scheduled time must be in the future", w)
    else
      let batchId := make_batch_id e in
      match forEach_schedule e (phoneNumber req) scheduledDate batchId
              (messages req) 0 0 [] (db w) with
      | (d', Normal insertedIds) =>
          (Scheduled200 (List.length (messages req)) insertedIds,
           broadcast_scheduled (with_db d' w))
      | (d', Thrown error) => (Status500 error, with_db d' w)
      end.

(** ** The earlier form of the handler ([server.js]) *)

Module Legacy.

(** [message.split('/')] *)
Fixpoint split_slash (s : string) : list string :=
  match s with
  | EmptyString => [EmptyString]
  | String c s' =>
      if Ascii.eqb c "/"
      then EmptyString :: split_slash s'
      else match split_slash s' with
           | [] => [String c EmptyString]
           | h :: t => String c h :: t
           end
  end.

(** White space as [trim] sees it, among the one-byte characters. *)
Definition is_space (c : ascii) : bool :=
  let n := nat_of_ascii c in
  (Nat.leb 9 n && Nat.leb n 13) || Nat.eqb n 32.

Fixpoint trim_start (s : string) : string :=
  match s with
  | String c s' => if is_space c then trim_start s' else s
  | EmptyString => EmptyString
  end.

Fixpoint trim_end (s : string) : string :=
  match s with
  | EmptyString => EmptyString
  | String c s' =>
      match trim_end s' with
      | EmptyString => if is_space c then EmptyString else String c EmptyString
      | t => String c t
      end
  end.

(** [m.trim()] *)
Definition trim (s : string) : string := trim_end (trim_start s).

(** [message.split('/').map(m => m.trim()).filter(m => m.length > 0)] *)
Definition split_messages (message : string) : list string :=
  filter (fun m => Nat.ltb 0 (String.length m)) (map trim (split_slash message)).

(** The body of the request: one text holding all messages, separated
    by slashes.  [None] is a body without the field. *)
Record ScheduleReq := mkReq {
  phoneNumber : string;
  message : option string;
  scheduledTime : TimeArg
}.

(** [app.post('/api/schedule', ...)] of [server.js].  Its first statement
    logs [message.length], which throws outside the [try] when the field
    is absent.  Nothing is broadcast. *)
Definition post_schedule (e : Env) (req : ScheduleReq) (w : World)
    : Response * World :=
  match message req with
  | None => (Status500 "Cannot read properties of undefined", w)
  | Some text =>
      if string_falsy (phoneNumber req) || string_falsy text
         || time_falsy (scheduledTime req)
      then (Status400 "Missing required fields", w)
      else
        let scheduledDate := new_Date (scheduledTime req) in
        if date_not_after scheduledDate (clock e)
        then (Status400 "Scheduled time must be in the future", w)
        else
          let messages := split_messages text in
          if Nat.eqb (List.length messages) 0
          then (Status400 "No valid messages found", w)
          else
            let batchId := make_batch_id e in
            match forEach_schedule e (phoneNumber req) scheduledDate batchId
                    (map JStr messages) 0 0 [] (db w) with
            | (d', Normal insertedIds) =>
                (Scheduled200 (List.length messages) insertedIds, with_db d' w)
            | (d', Thrown error) => (Status500 error, with_db d' w)
            end
  end.

End Legacy.

(** ** Edit and delete handlers *)

(** [app.get('/api/scheduled', ...)] *)
Definition get_scheduled (w : World) : list Row := select_pending (db w).

(** [app.put('/api/scheduled/:id', ...)].  The new time is bound to the
    statement as it came in the body; nothing compares it with the clock. *)
Definition put_scheduled (i : Z) (newTime : Z) (w : World) : Response * World :=
  let (d', changes) := update_scheduled_time newTime i (db w) in
  if Nat.ltb 0 changes
  then (Success200, broadcast_scheduled (with_db d' w))
  else (Status404 "Message not found", with_db d' w).

(** [app.delete('/api/scheduled/:id', ...)] *)
Definition delete_scheduled (i : Z) (w : World) : Response * World :=
  let (d', changes) := delete_message i (db w) in
  if Nat.ltb 0 changes
  then (Success200, broadcast_scheduled (with_db d' w))
  else (Status404 "Message not found", with_db d' w).

(** [app.delete('/api/scheduled/batch/:batchId', ...)] *)
Definition delete_scheduled_batch (b : string) (w : World) : Response * World :=
  let (d', _) := delete_batch b (db w) in
  (Success200, broadcast_scheduled (with_db d' w)).

(** ** Dispatcher *)

(** [chatId.includes('@')] *)
Fixpoint includes_at (s : string) : bool :=
  match s with
  | EmptyString => false
  | String c s' => Ascii.eqb c "@" || includes_at s'
  end.

Definition is_digit (c : ascii) : bool :=
  let n := nat_of_ascii c in Nat.leb 48 n && Nat.leb n 57.

(** [chatId.replace(/[^0-9]/g, '')] *)
Fixpoint keep_digits (s : string) : string :=
  match s with
  | EmptyString => EmptyString
  | String c s' => if is_digit c then String c (keep_digits s') else keep_digits s'
  end.

Definition chat_id_of (phone : string) : string :=
  if includes_at phone then phone
  else String.append (keep_digits phone) "@c.us".

(** The transport, as the dispatcher meets it: whether the
    [client.sendMessage] call made for an entry resolves. *)
Definition Transport : Type := Row -> bool.

(** What follows the settling of [await client.sendMessage(...)] for
    [msg]: on success the row is marked sent and the pending list is
    broadcast; on failure the [catch] only logs. *)
Definition after_send (ok : bool) (msg : Row) (w : World) : World :=
  let w1 := record_call (mkCall msg (chat_id_of (phone_number msg)) ok) w in
  if ok
  then broadcast_scheduled (with_db (mark_sent (id msg) (db w1)) w1)
  else w1.

(** One turn of [for (const msg of messagesToSend)]. *)
Definition send_one (tr : Transport) (w : World) (msg : Row) : World :=
  after_send (tr msg) msg w.

(** One run of the cron callback from its first statement to its last,
    with no other callback running in between. *)
Definition cron_tick (now : Z) (tr : Transport) (w : World) : World :=
  if isReady w
  then fold_left (send_one tr) (select_due now (db w)) w
  else w.

(** *** The callback on the event loop

    The callback is [async]: it gives control back at
    [await client.sendMessage(...)] and at the [await] of the 500 ms
    pause, and another run of the callback can start there. *)
Inductive TickPhase : Type :=
| AwaitSend (msg : Row) (rest : list Row)
| AwaitPause (rest : list Row)
| TickDone.

(** Entering the next turn of the loop: the send for the first remaining
    entry is started, or the loop ends. *)
Definition next_turn (rest : list Row) : TickPhase :=
  match rest with
  | [] => TickDone
  | msg :: rest' => AwaitSend msg rest'
  end.

Inductive LoopEvent : Type :=
| CronFires (now : Z)
| SendSettles (k : nat) (ok : bool)
| PauseElapses (k : nat).

Fixpoint set_nth {A : Type} (k : nat) (a : A) (l : list A) : list A :=
  match l, k with
  | [], _ => []
  | _ :: l', O => a :: l'
  | x :: l', S k' => x :: set_nth k' a l'
  end.

(** One task of the event loop.  The running callbacks are numbered in
    the order they started. *)
Definition loop_step (st : World * list TickPhase) (ev : LoopEvent)
    : World * list TickPhase :=
  let (w, ticks) := st in
  match ev with
  | CronFires now =>
      if isReady w
      then (w, ticks ++ [next_turn (select_due now (db w))])
      else (w, ticks ++ [TickDone])
  | SendSettles k ok =>
      match nth_error ticks k with
      | Some (AwaitSend msg rest) =>
          (after_send ok msg w,
           set_nth k (if ok then AwaitPause rest else next_turn rest) ticks)
      | _ => st
      end
  | PauseElapses k =>
      match nth_error ticks k with
      | Some (AwaitPause rest) => (w, set_nth k (next_turn rest) ticks)
      | _ => st
      end
  end.

Definition run_loop (evs : list LoopEvent) (st : World * list TickPhase)
    : World * list TickPhase :=
  fold_left loop_step evs st.

(** The events of one callback that runs alone over [snapshot]. *)
Fixpoint solo_events (k : nat) (tr : Transport) (snapshot : list Row)
    : list LoopEvent :=
  match snapshot with
  | [] => []
  | msg :: rest =>
      if tr msg
      then SendSettles k true :: PauseElapses k :: solo_events k tr rest
      else SendSettles k false :: solo_events k tr rest
  end.

(** ** The server as a state machine *)

Inductive Op : Type :=
| OpSchedule (e : Env) (req : ScheduleReq)
| OpReschedule (i : Z) (newTime : Z)
| OpDelete (i : Z)
| OpDeleteBatch (b : string)
| OpTick (now : Z) (tr : Transport)
| OpConnection (ready : bool).

Definition apply_op (w : World) (o : Op) : World :=
  match o with
  | OpSchedule e req => snd (post_schedule e req w)
  | OpReschedule i t => snd (put_scheduled i t w)
  | OpDelete i => snd (delete_scheduled i w)
  | OpDeleteBatch b => snd (delete_scheduled_batch b w)
  | OpTick now tr => cron_tick now tr w
  | OpConnection ready => mkWorld (db w) ready (wsLog w) (outbox w)
  end.

Definition run_ops (ops : list Op) (w : World) : World :=
  fold_left apply_op ops w.

(** The ids of the entries a resolved [sendMessage] call was made for. *)
Definition delivered (w : World) : list Z :=
  map (fun c => id (call_row c)) (filter call_ok (outbox w)).

(** The table as the handlers keep it: rowids strictly increasing down
    the table and none above the counter. *)
Definition db_ok (d : DB) : Prop :=
  StronglySorted Z.lt (map id (rows d))
  /\ Forall (fun r => id r <= sqlite_sequence d) (rows d).

(** The call the dispatcher makes for [msg] under the transport [tr]. *)
Definition call_for (tr : Transport) (msg : Row) : SendCall :=
  mkCall msg (chat_id_of (phone_number msg)) (tr msg).

(** The rows a run over [snapshot] marks: those whose id is the id of a
    snapshot entry whose send resolved. *)
Definition marked_by (tr : Transport) (snapshot : list Row) (r : Row) : bool :=
  existsb (fun msg => (id msg =? id r) && tr msg) snapshot.

(** The messages of a request "after trimming and filtering blank
    entries", in the words of the specification: the texts, trimmed, the
    empty ones dropped. *)
Definition trimmed_nonblank (msgs : list jsval) : list string :=
  filter (fun m => Nat.ltb 0 (String.length m))
         (flat_map (fun v => match v with
                             | JStr s => [Legacy.trim s]
                             | JNull => []
                             end) msgs).

(** The table and the record of deliveries in step with each other:
    the rowids are in order, no delivery is recorded twice, and an entry
    with a recorded delivery has a rowid the counter has passed and is
    marked sent wherever it is still in the table. *)
Definition consistent (w : World) : Prop :=
  db_ok (db w)
  /\ NoDup (delivered w)
  /\ forall i, In i (delivered w) ->
       i <= sqlite_sequence (db w)
       /\ forall r, In r (rows (db w)) -> id r = i -> sent r = true.

(** The row an insert of the text [s] writes into [d]. *)
Definition new_row (e : Env) (phone batch : string) (d : DB) (s : string) (t : Z)
    : Row :=
  mkRow (sqlite_sequence d + 1) phone s t (1000 * datetime (clock e)) false batch.

(** ** Favorites: the [favorites] table and its handlers *)

Module Favorites.

(** One row of [favorites]. *)
Record Favorite := mkFav {
  id : Z;
  chat_id : string;
  name : string;
  is_group : bool;
  added_at : Z
}.

Record Table := mkTable {
  favs : list Favorite;
  sqlite_sequence : Z
}.

(** The table and what was pushed to the observers as
    [{ type: 'favorites', data: allFavorites }]. *)
Record State := mkState {
  table : Table;
  pushed : list (list Favorite)
}.

(** [INSERT OR REPLACE INTO favorites (chat_id, name, is_group) VALUES
    (?, ?, ?)].  [chat_id] is [UNIQUE]: a row with the same [chat_id] is
    deleted before the new one goes in with a fresh rowid.  [chat_id] and
    [name] are [NOT NULL] with no default: [null] makes the statement
    fail. *)
Definition insert_or_replace (now : Z) (chatId name : jsval) (isGroup : bool)
    (t : Table) : option Table :=
  match chatId, name with
  | JStr c, JStr n =>
      let rowid := sqlite_sequence t + 1 in
      Some (mkTable
              (filter (fun f => negb (String.eqb (chat_id f) c)) (favs t)
               ++ [mkFav rowid c n isGroup (1000 * datetime now)])
              rowid)
  | _, _ => None
  end.

(** [ORDER BY added_at DESC] *)
Fixpoint insert_by_added (f : Favorite) (l : list Favorite) : list Favorite :=
  match l with
  | [] => [f]
  | x :: l' =>
      if added_at x <=? added_at f
      then f :: l
      else x :: insert_by_added f l'
  end.

(** [SELECT * FROM favorites ORDER BY added_at DESC] *)
Definition select_all (t : Table) : list Favorite :=
  fold_right insert_by_added [] (favs t).

(** [DELETE FROM favorites WHERE chat_id = ?] *)
Definition delete_chat (c : string) (t : Table) : Table :=
  mkTable (filter (fun f => negb (String.eqb (chat_id f) c)) (favs t))
          (sqlite_sequence t).

(** [app.get('/api/favorites', ...)] *)
Definition get_favorites (s : State) : list Favorite := select_all (table s).

(** [app.post('/api/favorites', ...)]; [isGroup ? 1 : 0] is the boolean. *)
Definition post_favorite (now : Z) (chatId name : jsval) (isGroup : bool)
    (s : State) : Response * State :=
  match insert_or_replace now chatId name isGroup (table s) with
  | Some t' => (Success200, mkState t' (pushed s ++ [select_all t']))
  | None => (Status500 "NOT NULL constraint failed", s)
  end.

(** [app.delete('/api/favorites/:chatId', ...)] *)
Definition delete_favorite (c : string) (s : State) : Response * State :=
  let t' := delete_chat c (table s) in
  (Success200, mkState t' (pushed s ++ [select_all t'])).

Inductive Op : Type :=
| Add (now : Z) (chatId name : jsval) (isGroup : bool)
| Remove (c : string).

Definition apply_op (s : State) (o : Op) : State :=
  match o with
  | Add now chatId name isGroup => snd (post_favorite now chatId name isGroup s)
  | Remove c => snd (delete_favorite c s)
  end.

Definition run_ops (ops : list Op) (s : State) : State :=
  fold_left apply_op ops s.

Definition initial : State := mkState (mkTable [] 0) [].

End Favorites.

(** ** Contacts: the chat list and its cache *)

Module Contacts.

(** A chat as [client.getChats()] gives it: [chat.id._serialized],
    [chat.name] (empty when absent), [chat.id.user], [chat.isGroup],
    [chat.isMe]. *)
Record Chat := mkChat {
  serialized : string;
  chat_name : string;
  user : string;
  chat_isGroup : bool;
  isMe : bool
}.

(** An entry of the list sent to the front end. *)
Record Entry := mkEntry {
  id : string;
  name : string;
  number : option string;
  isGroup : bool
}.

(** [a || b] on strings *)
Definition or_else (a b : string) : string :=
  if string_falsy a then b else a.

(** The body of [for (const chat of allChats)]: what is pushed for one
    chat. *)
Definition process (c : Chat) : list Entry :=
  if chat_isGroup c
  then [mkEntry (serialized c) (or_else (chat_name c) "Unnamed Group") None true]
  else if negb (isMe c)
  then [mkEntry (serialized c)
                (or_else (chat_name c) (or_else (user c) "Unknown"))
                (Some (user c)) false]
  else [].

Definition processed (allChats : list Chat) : list Entry :=
  flat_map process allChats.

Section Sorting.

(** [String.prototype.localeCompare], which depends on the locale of the
    host. *)
Variable localeCompare : string -> string -> Z.

(** The comparator given to [processed.sort]. *)
Definition compare_entries (a b : Entry) : Z :=
  if isGroup a && negb (isGroup b) then -1
  else if negb (isGroup a) && isGroup b then 1
  else localeCompare (or_else (name a) EmptyString) (or_else (name b) EmptyString).

(** [Array.prototype.sort], which is stable: an entry goes before the
    first one it does not compare greater than. *)
Fixpoint insert_entry (x : Entry) (l : list Entry) : list Entry :=
  match l with
  | [] => [x]
  | y :: l' =>
      if compare_entries x y <=? 0
      then x :: l
      else y :: insert_entry x l'
  end.

Definition sort_entries (l : list Entry) : list Entry :=
  fold_right insert_entry [] l.

(** The globals [chatsCache] and [lastCacheUpdate]. *)
Record Cache := mkCache {
  chatsCache : option (list Entry);
  lastCacheUpdate : option Z
}.

(** [chatsCache && lastCacheUpdate && (now - lastCacheUpdate) < 30000] *)
Definition cache_fresh (now : Z) (c : Cache) : bool :=
  match chatsCache c, lastCacheUpdate c with
  | Some _, Some last => negb (last =? 0) && (now - last <? 30000)
  | _, _ => false
  end.

(** [loadChatsCache()].  [getChats] is how [await client.getChats()] ends
    if it is called; a rejection is logged and thrown again, and the
    cache is left as it was. *)
Definition loadChatsCache (now : Z) (getChats : completion (list Chat))
    (c : Cache) : completion (list Entry) * Cache :=
  match chatsCache c with
  | Some cached =>
      if cache_fresh now c then (Normal cached, c)
      else match getChats with
           | Normal allChats =>
               let sorted := sort_entries (processed allChats) in
               (Normal sorted, mkCache (Some sorted) (Some now))
           | Thrown error => (Thrown error, c)
           end
  | None =>
      match getChats with
      | Normal allChats =>
          let sorted := sort_entries (processed allChats) in
          (Normal sorted, mkCache (Some sorted) (Some now))
      | Thrown error => (Thrown error, c)
      end
  end.

(** What [client.on('disconnected', ...)] does to the cache. *)
Definition on_disconnected (c : Cache) : Cache :=
  mkCache None (lastCacheUpdate c).

Inductive ContactsResponse : Type :=
| Unavailable503
| Chats200 (chats : list Entry).

(** [app.get('/api/contacts', ...)] *)
Definition get_contacts (ready : bool) (now : Z)
    (getChats : completion (list Chat)) (c : Cache)
    : ContactsResponse * Cache :=
  if negb ready then (Unavailable503, c)
  else match loadChatsCache now getChats c with
       | (Normal chats, c') => (Chats200 chats, c')
       | (Thrown _, c') => (Chats200 [], c')
       end.

End Sorting.

End Contacts.

(** ** Predicates on texts *)

(** The character [c] occurs in [s]. *)
Fixpoint has_char (c : ascii) (s : string) : bool :=
  match s with
  | EmptyString => false
  | String x s' => Ascii.eqb x c || has_char c s'
  end.

(** The first character of [s] is white space. *)
Definition starts_with_space (s : string) : bool :=
  match s with
  | EmptyString => false
  | String c _ => Legacy.is_space c
  end.

(** The last character of [s] is white space. *)
Fixpoint ends_with_space (s : string) : bool :=
  match s with
  | EmptyString => false
  | String c EmptyString => Legacy.is_space c
  | String _ s' => ends_with_space s'
  end.

(** Every character of [s] is a decimal digit. *)
Fixpoint all_digits (s : string) : bool :=
  match s with
  | EmptyString => true
  | String c s' => is_digit c && all_digits s'
  end.

(** A row without its [sent] flag and its [scheduled_time]: what no
    handler ever writes after the insert. *)
Definition fixed_part (r : Row) : Z * string * string * Z * string :=
  (id r, phone_number r, message r, created_at r, batch_id r).

(** The handler that produced [result] from [w] told the observers: on
    success the pending list as it is afterwards was pushed, once; on an
    error nothing was pushed. *)
Definition announces (w : World) (result : Response * World) : Prop :=
  match fst result with
  | Scheduled200 _ _ | Success200 =>
      wsLog (snd result) = wsLog w ++ [WsScheduled (get_scheduled (snd result))]
  | _ => wsLog (snd result) = wsLog w
  end.

(** ** Scenarios *)

(** A clock one second after the epoch, a batch tag, and every draw 1/2. *)
Definition readme_env : Env := mkEnv 1000 "k3x9q2m1z" (fun _ => 1 # 2)%Q.

(** Two requests on a connected server, the second for an earlier time
    than the first. *)
Definition early_bird_env : Env := mkEnv 0 "k3x9q2m1z" (fun _ => 1 # 2)%Q.

Definition late_first_world : World :=
  run_ops [OpConnection true;
           OpSchedule early_bird_env (mkReq "5511999@c.us" [JStr "see you at five"] (TimeAt 5000));
           OpSchedule early_bird_env (mkReq "5511999@c.us" [JStr "see you at two"] (TimeAt 2000))]
          initial_world.

(** Three due entries; the transport rejects the second. *)
Definition three_due_world : World :=
  mkWorld (mkDB [mkRow 1 "5511999" "Hey" 1000 0 false "17a";
                 mkRow 2 "5511999" "How are you?" 4000 0 false "17a";
                 mkRow 3 "5511999" "Want to hang out?" 9000 0 false "17a"] 3)
          true [] [].

(** A history with a failed send, a retry, an edit and two deletes. *)
Definition busy_history : list Op :=
  [OpConnection true;
   OpSchedule readme_env
     (mkReq "5511999@c.us" [JStr "Hey"; JStr "How are you?"] (TimeAt 5000));
   OpTick 10000 (fun _ => false);
   OpTick 15000 (fun m => id m =? 1);
   OpReschedule 2 30000;
   OpReschedule 1 30000;
   OpTick 20000 (fun _ => true);
   OpDelete 1;
   OpDeleteBatch (make_batch_id readme_env);
   OpTick 25000 (fun _ => true)].

(** * Properties *)

(** ** The typing delay stays within its bounds *)

Section TypingDelayBounds.

Variable L : Z.
Variables u1 u2 : Q.
Hypothesis L_nonneg : 0 <= L.
Hypothesis draw1 : unit_draw u1.
Hypothesis draw2 : unit_draw u2.

Lemma cps_low : (5 # 2 <= 3 + (u1 * (1 # 2) * 2 - (1 # 2)))%Q.
Proof. destruct draw1. lra. Qed.

Lemma L_nonneg_Q : (0 <= inject_Z L)%Q.
Proof. change 0%Q with (inject_Z 0). rewrite <- Zle_Qle. exact L_nonneg. Qed.

Lemma base_nonneg : (0 <= inject_Z L / (3 + (u1 * (1 # 2) * 2 - (1 # 2))) * 1000)%Q.
Proof.
  pose proof cps_low. pose proof L_nonneg_Q.
  apply Qmult_le_0_compat; [ | lra ].
  apply Qle_shift_div_l; lra.
Qed.

Lemma base_upper : (inject_Z L / (3 + (u1 * (1 # 2) * 2 - (1 # 2))) * 1000 <= inject_Z L / (5 # 2) * 1000)%Q.
Proof.
  pose proof cps_low as Hc. pose proof L_nonneg_Q as HL.
  apply Qmult_le_compat_r; [ | lra ].
  apply Qle_shift_div_r; [ lra | ].
  set (cps := (3 + (u1 * (1 # 2) * 2 - (1 # 2)))%Q) in *.
  setoid_replace (inject_Z L / (5 # 2) * cps)%Q
    with (inject_Z L * ((2 # 5) * cps))%Q by (field).
  assert (1 <= (2 # 5) * cps)%Q by lra.
  nra.
Qed.

End TypingDelayBounds.



(** ** The table: rowids, membership, the pending list *)

Lemma set_sent_sent (r : Row) : sent r = true -> set_sent r = r.
Proof. destruct r; simpl; intros ->; reflexivity. Qed.

Lemma map_id_on (f : Row -> Row) (l : list Row) :
  (forall r, In r l -> f r = r) -> map f l = l.
Proof.
  induction l as [ | x l IH ]; simpl; intros H; [ reflexivity | ].
  rewrite H by (left; reflexivity).
  rewrite IH; [ reflexivity | intros r Hr; apply H; right; exact Hr ].
Qed.

Lemma insert_by_time_In (r x : Row) (l : list Row) :
  In x (insert_by_time r l) <-> x = r \/ In x l.
Proof.
  induction l as [ | y l IH ]; simpl.
  - intuition congruence.
  - destruct (scheduled_time r <=? scheduled_time y); simpl.
    + intuition congruence.
    + rewrite IH. intuition congruence.
Qed.

Lemma order_by_scheduled_time_In (x : Row) (l : list Row) :
  In x (order_by_scheduled_time l) <-> In x l.
Proof.
  induction l as [ | y l IH ]; simpl; [ tauto | ].
  rewrite insert_by_time_In, IH. intuition congruence.
Qed.

Lemma insert_by_time_sorted (r : Row) (l : list Row) :
  Sorted (fun a b => scheduled_time a <= scheduled_time b) l ->
  Sorted (fun a b => scheduled_time a <= scheduled_time b) (insert_by_time r l).
Proof.
  induction 1 as [ | y l Hs IH Hhd ]; simpl.
  - repeat constructor.
  - destruct (scheduled_time r <=? scheduled_time y) eqn:E.
    + apply Z.leb_le in E. repeat constructor; assumption.
    + apply Z.leb_gt in E. constructor; [ exact IH | ].
      destruct Hhd as [ | z l Hz ]; simpl.
      * constructor. lia.
      * destruct (scheduled_time r <=? scheduled_time z); constructor; lia.
Qed.

(** The pending list is in ascending order of [scheduled_time] and holds
    exactly the unsent rows. *)
Lemma select_pending_sorted (d : DB) :
  Sorted (fun a b => scheduled_time a <= scheduled_time b) (select_pending d).
Proof.
  unfold select_pending.
  induction (filter (fun r => negb (sent r)) (rows d)) as [ | x l IH ]; simpl.
  - constructor.
  - apply insert_by_time_sorted. exact IH.
Qed.

Lemma select_pending_In (d : DB) (r : Row) :
  In r (select_pending d) <-> In r (rows d) /\ sent r = false.
Proof.
  unfold select_pending.
  rewrite order_by_scheduled_time_In, filter_In, negb_true_iff. tauto.
Qed.

Lemma select_due_In (now : Z) (d : DB) (r : Row) :
  In r (select_due now d)
  <-> In r (rows d) /\ sent r = false
      /\ datetime (scheduled_time r) <= datetime now.
Proof.
  unfold select_due, is_due.
  rewrite filter_In, andb_true_iff, negb_true_iff, Z.leb_le. tauto.
Qed.

Lemma datetime_mono (a b : Z) : a <= b -> datetime a <= datetime b.
Proof. intros H. unfold datetime. apply Z.div_le_mono; lia. Qed.

(** Rowids identify rows in a table kept by the handlers. *)
Lemma sorted_ids_inj (l : list Row) :
  StronglySorted Z.lt (map id l) ->
  forall r1 r2, In r1 l -> In r2 l -> id r1 = id r2 -> r1 = r2.
Proof.
  induction l as [ | x l IH ]; simpl; intros Hs r1 r2 H1 H2 Heq; [ destruct H1 | ].
  apply StronglySorted_inv in Hs. destruct Hs as [Hs Hall].
  rewrite Forall_forall in Hall.
  assert (Hlt : forall r, In r l -> id x < id r).
  { intros r Hr. apply Hall. apply in_map. exact Hr. }
  destruct H1 as [ <- | H1 ]; destruct H2 as [ <- | H2 ].
  - reflexivity.
  - specialize (Hlt _ H2). lia.
  - specialize (Hlt _ H1). lia.
  - apply IH; assumption.
Qed.

Lemma db_ok_ids_inj (d : DB) :
  db_ok d ->
  forall r1 r2, In r1 (rows d) -> In r2 (rows d) -> id r1 = id r2 -> r1 = r2.
Proof. intros [Hs _]. apply sorted_ids_inj. exact Hs. Qed.

Lemma sorted_filter (f : Row -> bool) (l : list Row) :
  StronglySorted Z.lt (map id l) ->
  StronglySorted Z.lt (map id (filter f l)).
Proof.
  induction l as [ | x l IH ]; simpl; intros Hs; [ constructor | ].
  apply StronglySorted_inv in Hs. destruct Hs as [Hs Hall].
  destruct (f x); simpl; [ | apply IH; exact Hs ].
  constructor; [ apply IH; exact Hs | ].
  rewrite Forall_forall in *. intros i Hi.
  apply in_map_iff in Hi. destruct Hi as [r [<- Hr]].
  apply filter_In in Hr. apply Hall. apply in_map. tauto.
Qed.

Lemma map_id_update (f : Row -> Row) (l : list Row) :
  (forall r, id (f r) = id r) -> map id (map f l) = map id l.
Proof.
  intros H. rewrite map_map. apply map_ext. exact H.
Qed.

(** ** Batch delete removes the unsent rows of that batch and no other *)

(** C7.  After [DELETE /api/scheduled/batch/:batchId] the table holds, in
    their old order, exactly the rows that were there and are not unsent
    rows of that very batch id: rows of any other batch id and sent rows
    of the same batch are kept as they were. *)
Theorem delete_batch_exact (b : string) (w : World) :
  fst (delete_scheduled_batch b w) = Success200
  /\ rows (db (snd (delete_scheduled_batch b w)))
     = filter (fun r => negb (String.eqb (batch_id r) b && negb (sent r)))
              (rows (db w))
  /\ forall r : Row,
       In r (rows (db (snd (delete_scheduled_batch b w))))
       <-> In r (rows (db w)) /\ ~ (batch_id r = b /\ sent r = false).
Proof.
  unfold delete_scheduled_batch, delete_batch, pending_in_batch; simpl.
  split; [ reflexivity | split; [ reflexivity | ] ].
  intros r. rewrite filter_In, negb_true_iff, andb_false_iff, negb_false_iff.
  rewrite String.eqb_neq.
  split; intros [Hin H]; (split; [ exact Hin | ]).
  - intros [Hb Hs]. destruct H as [H | H]; congruence.
  - destruct (String.eqb_spec (batch_id r) b) as [Hb | Hb]; [ | left; exact Hb ].
    right. destruct (sent r); [ reflexivity | exfalso; apply H; auto ].
Qed.

Lemma delete_batch_exact_witness :
  let keep := mkRow 1 "5511" "sent already" 1000 0 true "17" in
  let gone := mkRow 2 "5511" "still pending" 2000 0 false "17" in
  let other := mkRow 3 "5511" "longer batch id" 3000 0 false "170" in
  let w := mkWorld (mkDB [keep; gone; other] 3) true [] [] in
  rows (db (snd (delete_scheduled_batch "17" w))) = [keep; other].
Proof.
  intros keep gone other w.
  destruct (delete_batch_exact "17" w) as [_ [Hrows _]].
  rewrite Hrows. reflexivity.
Defined.

(** ** Rescheduling *)

Lemma hit_count_pos (f : Row -> bool) (l : list Row) (r : Row) :
  In r l -> f r = true -> Nat.ltb 0 (List.length (filter f l)) = true.
Proof.
  intros Hin Hf.
  assert (In r (filter f l)) as H by (apply filter_In; auto).
  destruct (filter f l); [ destruct H | reflexivity ].
Qed.

Lemma hit_count_zero (f : Row -> bool) (l : list Row) :
  (forall r, In r l -> f r = false) -> filter f l = [].
Proof.
  induction l as [ | x l IH ]; simpl; intros H; [ reflexivity | ].
  rewrite H by (left; reflexivity). apply IH. intros r Hr. apply H. right. exact Hr.
Qed.

Lemma pending_with_id_true (i : Z) (r : Row) :
  pending_with_id i r = true <-> id r = i /\ sent r = false.
Proof.
  unfold pending_with_id. rewrite andb_true_iff, Z.eqb_eq, negb_true_iff. tauto.
Qed.

Lemma pending_with_id_false (i : Z) (r : Row) :
  pending_with_id i r = false <-> (id r <> i \/ sent r = true).
Proof.
  unfold pending_with_id. rewrite andb_false_iff, Z.eqb_neq, negb_false_iff. tauto.
Qed.

Lemma put_scheduled_miss (i t : Z) (w : World) :
  (forall r, In r (rows (db w)) -> id r = i -> sent r = true) ->
  put_scheduled i t w = (Status404 "Message not found", w).
Proof.
  intros Hmiss.
  assert (Hf : forall r, In r (rows (db w)) -> pending_with_id i r = false).
  { intros r Hr. apply pending_with_id_false.
    destruct (Z.eq_dec (id r) i) as [E | E]; [ right; auto | left; exact E ]. }
  unfold put_scheduled, update_scheduled_time.
  rewrite (hit_count_zero _ _ Hf). simpl.
  rewrite map_id_on.
  - destruct w as [[rs sq] rdy lg ob]; reflexivity.
  - intros r Hr. rewrite (Hf r Hr). reflexivity.
Qed.

Lemma put_scheduled_hit (i t : Z) (w : World) (r : Row) :
  In r (rows (db w)) -> id r = i -> sent r = false ->
  put_scheduled i t w
  = (Success200,
     broadcast_scheduled (with_db (fst (update_scheduled_time t i (db w))) w)).
Proof.
  intros Hin Hid Hs.
  unfold put_scheduled, update_scheduled_time.
  rewrite (hit_count_pos (pending_with_id i) _ r Hin)
    by (apply pending_with_id_true; auto).
  reflexivity.
Qed.

Lemma put_scheduled_rows (i t : Z) (w : World) :
  rows (db (snd (put_scheduled i t w)))
  = map (fun r => if pending_with_id i r then set_scheduled_time t r else r)
        (rows (db w)).
Proof.
  unfold put_scheduled, update_scheduled_time.
  destruct (Nat.ltb 0 _); reflexivity.
Qed.



(** ** One run of the dispatcher *)

Lemma after_send_outbox (ok : bool) (msg : Row) (w : World) :
  outbox (after_send ok msg w)
  = outbox w ++ [mkCall msg (chat_id_of (phone_number msg)) ok].
Proof. unfold after_send. destruct ok; reflexivity. Qed.

Lemma after_send_rows (ok : bool) (msg : Row) (w : World) :
  rows (db (after_send ok msg w))
  = map (fun r => if (id msg =? id r) && ok then set_sent r else r) (rows (db w)).
Proof.
  unfold after_send. destruct ok; simpl.
  - apply map_ext. intros r. rewrite andb_true_r, Z.eqb_sym. reflexivity.
  - symmetry. apply map_id_on. intros r _. rewrite andb_false_r. reflexivity.
Qed.

Lemma after_send_sequence (ok : bool) (msg : Row) (w : World) :
  sqlite_sequence (db (after_send ok msg w)) = sqlite_sequence (db w).
Proof. unfold after_send. destruct ok; reflexivity. Qed.

Lemma loop_outbox (tr : Transport) (snapshot : list Row) (w : World) :
  outbox (fold_left (send_one tr) snapshot w)
  = outbox w ++ map (call_for tr) snapshot.
Proof.
  revert w. induction snapshot as [ | msg rest IH ]; intros w; simpl.
  - rewrite app_nil_r. reflexivity.
  - rewrite IH. unfold send_one. rewrite after_send_outbox.
    rewrite <- app_assoc. reflexivity.
Qed.

Lemma loop_sequence (tr : Transport) (snapshot : list Row) (w : World) :
  sqlite_sequence (db (fold_left (send_one tr) snapshot w)) = sqlite_sequence (db w).
Proof.
  revert w. induction snapshot as [ | msg rest IH ]; intros w; simpl.
  - reflexivity.
  - rewrite IH. apply after_send_sequence.
Qed.

Lemma loop_rows (tr : Transport) (snapshot : list Row) (w : World) :
  rows (db (fold_left (send_one tr) snapshot w))
  = map (fun r => if marked_by tr snapshot r then set_sent r else r) (rows (db w)).
Proof.
  revert w. induction snapshot as [ | msg rest IH ]; intros w; simpl.
  - symmetry. apply map_id_on. reflexivity.
  - rewrite IH. unfold send_one. rewrite after_send_rows, map_map.
    apply map_ext. intros r.
    destruct ((id msg =? id r) && tr msg) eqn:E; simpl.
    + destruct (marked_by tr rest (set_sent r)); reflexivity.
    + reflexivity.
Qed.

(** With distinct rowids, the rows a run marks are the due rows whose
    send resolved. *)
Lemma marked_by_due (tr : Transport) (now : Z) (d : DB) (r : Row) :
  db_ok d -> In r (rows d) ->
  marked_by tr (select_due now d) r = is_due now r && tr r.
Proof.
  intros Hok Hin. unfold marked_by.
  destruct (is_due now r && tr r) eqn:E.
  - apply andb_true_iff in E. destruct E as [Hdue Htr].
    apply existsb_exists. exists r. split.
    + apply filter_In. auto.
    + rewrite Z.eqb_refl, Htr. reflexivity.
  - destruct (existsb _ _) eqn:X; [ | reflexivity ].
    apply existsb_exists in X. destruct X as [msg [Hmsg Hhit]].
    apply andb_true_iff in Hhit. destruct Hhit as [Hid Htr].
    apply Z.eqb_eq in Hid. apply filter_In in Hmsg. destruct Hmsg as [Hmsg Hdue].
    assert (msg = r) by (apply (db_ok_ids_inj d Hok); assumption).
    subst msg. rewrite Hdue, Htr in E. discriminate.
Qed.

Lemma cron_tick_rows (now : Z) (tr : Transport) (w : World) :
  isReady w = true -> db_ok (db w) ->
  rows (db (cron_tick now tr w))
  = map (fun r => if is_due now r && tr r then set_sent r else r) (rows (db w)).
Proof.
  intros Hready Hok. unfold cron_tick. rewrite Hready, loop_rows.
  apply map_ext_in. intros r Hr.
  rewrite (marked_by_due tr now (db w) r Hok Hr). reflexivity.
Qed.

Lemma cron_tick_outbox (now : Z) (tr : Transport) (w : World) :
  isReady w = true ->
  outbox (cron_tick now tr w)
  = outbox w ++ map (call_for tr) (select_due now (db w)).
Proof.
  intros Hready. unfold cron_tick. rewrite Hready. apply loop_outbox.
Qed.

(** ** Order of the sends within a run *)

(** C1, as the code has it.  A run of the dispatcher over a connected
    server calls the transport once for each due row, one after the
    other, in the order of the table, which is ascending rowid; the due
    rows are the unsent rows whose time, cut to whole seconds, is not
    after the current second. *)
Theorem dispatch_in_table_order (now : Z) (tr : Transport) (w : World) :
  isReady w = true ->
  outbox (cron_tick now tr w)
  = outbox w ++ map (call_for tr) (select_due now (db w))
  /\ (forall r, In r (select_due now (db w))
                <-> In r (rows (db w)) /\ sent r = false
                    /\ scheduled_time r / 1000 <= now / 1000)
  /\ (db_ok (db w) -> StronglySorted Z.lt (map id (select_due now (db w)))).
Proof.
  intros Hready. split; [ apply cron_tick_outbox; exact Hready | split ].
  - intros r. apply select_due_In.
  - intros [Hs _]. apply sorted_filter. exact Hs.
Qed.

Lemma dispatch_in_table_order_witness :
  map (fun c => id (call_row c))
      (outbox (cron_tick 10000 (fun _ => true) late_first_world)) = [1; 2].
Proof.
  destruct (dispatch_in_table_order 10000 (fun _ => true) late_first_world)
    as [Hout _]; [ reflexivity | ].
  rewrite Hout. reflexivity.
Defined.

(** C1 as stated fails: both entries are unsent and due at 10000, and the
    transport is called for the entry due at 5000 before the one due at
    2000. *)
Lemma dispatch_not_in_time_order :
  let calls := outbox (cron_tick 10000 (fun _ => true) late_first_world) in
  db_ok (db late_first_world)
  /\ Forall (fun c => sent (call_row c) = false /\ scheduled_time (call_row c) <= 10000)
            calls
  /\ map (fun c => scheduled_time (call_row c)) calls = [5000; 2000]
  /\ ~ Sorted Z.le (map (fun c => scheduled_time (call_row c)) calls).
Proof.
  split; [ | split; [ | split ] ].
  - split; simpl; repeat constructor; simpl; lia.
  - simpl. repeat constructor; simpl; lia.
  - reflexivity.
  - simpl. intros H. inversion H as [ | a l _ Hhd ]; subst.
    inversion Hhd; subst. lia.
Qed.

(** ** A failed send and the rest of the run *)

(** C8.  In a run over a connected server the transport is called for
    every due entry, whatever became of the calls before it.  An entry
    whose send fails stays in the table as it was, unsent, and is due at
    every later instant; an entry whose send resolves is marked sent. *)
Theorem failed_send_is_isolated (now : Z) (tr : Transport) (w : World) (m : Row) :
  isReady w = true -> db_ok (db w) -> In m (select_due now (db w)) ->
  In (call_for tr m) (outbox (cron_tick now tr w))
  /\ (tr m = false ->
      In m (rows (db (cron_tick now tr w)))
      /\ sent m = false
      /\ forall later, now <= later ->
           In m (select_due later (db (cron_tick now tr w))))
  /\ (tr m = true ->
      In (set_sent m) (rows (db (cron_tick now tr w)))
      /\ ~ In m (rows (db (cron_tick now tr w)))).
Proof.
  intros Hready Hok Hdue.
  pose proof (cron_tick_rows now tr w Hready Hok) as Hrows.
  pose proof Hdue as Hdue'. apply select_due_In in Hdue'.
  destruct Hdue' as [Hin [Hunsent Htime]].
  assert (His : is_due now m = true).
  { unfold select_due in Hdue. apply filter_In in Hdue. tauto. }
  split; [ | split ].
  - rewrite (cron_tick_outbox now tr w Hready). apply in_or_app. right.
    apply in_map. exact Hdue.
  - intros Hfail.
    assert (Hkept : In m (rows (db (cron_tick now tr w)))).
    { rewrite Hrows. apply in_map_iff. exists m. split; [ | exact Hin ].
      rewrite His, Hfail. reflexivity. }
    split; [ exact Hkept | split; [ exact Hunsent | ] ].
    intros later Hlater. apply select_due_In.
    split; [ exact Hkept | split; [ exact Hunsent | ] ].
    pose proof (datetime_mono now later Hlater). lia.
  - intros Hsucc. split.
    + rewrite Hrows. apply in_map_iff. exists m. split; [ | exact Hin ].
      rewrite His, Hsucc. reflexivity.
    + rewrite Hrows. intros Habs. apply in_map_iff in Habs.
      destruct Habs as [r [Heq Hr]].
      destruct (is_due now r && tr r) eqn:E.
      * subst m. simpl in Hunsent. discriminate.
      * subst r. rewrite His, Hsucc in E. discriminate.
Qed.

Lemma failed_send_is_isolated_witness :
  let tr := fun m : Row => negb (id m =? 2) in
  let after := cron_tick 10000 tr three_due_world in
  map sent (rows (db after)) = [true; false; true]
  /\ In (mkRow 2 "5511999" "How are you?" 4000 0 false "17a")
        (select_due 15000 (db after))
  /\ In (set_sent (mkRow 3 "5511999" "Want to hang out?" 9000 0 false "17a"))
        (rows (db after)).
Proof.
  intros tr after.
  assert (Hok : db_ok (db three_due_world)).
  { split; simpl; repeat constructor; simpl; lia. }
  split; [ reflexivity | split ].
  - refine (proj2 (proj2 (proj1 (proj2
      (failed_send_is_isolated 10000 tr three_due_world
         (mkRow 2 "5511999" "How are you?" 4000 0 false "17a")
         eq_refl Hok _)) eq_refl)) 15000 _); [ simpl; auto | lia ].
  - refine (proj1 (proj2 (proj2
      (failed_send_is_isolated 10000 tr three_due_world
         (mkRow 3 "5511999" "Want to hang out?" 9000 0 false "17a")
         eq_refl Hok _)) eq_refl)); simpl; auto.
Defined.

(** ** Validation of a scheduling request *)

Lemma post_schedule_rejects (e : Env) (req : ScheduleReq) (w : World) :
  phoneNumber req = EmptyString
  \/ messages req = []
  \/ scheduledTime req = TimeAbsent
  \/ (exists t, scheduledTime req = TimeAt t /\ t <= clock e) ->
  exists error, post_schedule e req w = (Status400 error, w).
Proof.
  unfold post_schedule.
  intros [H | [H | [H | [t [H Hpast]]]]]; rewrite H; simpl.
  - eexists; reflexivity.
  - rewrite orb_true_r. simpl. eexists; reflexivity.
  - rewrite orb_true_r. eexists; reflexivity.
  - destruct (string_falsy (phoneNumber req) || _ || false);
      [ eexists; reflexivity | ].
    apply Z.leb_le in Hpast. rewrite Hpast. eexists; reflexivity.
Qed.

Lemma legacy_post_schedule_rejects (e : Env) (req : Legacy.ScheduleReq)
    (text : string) (w : World) :
  Legacy.message req = Some text ->
  Legacy.phoneNumber req = EmptyString
  \/ Legacy.split_messages text = []
  \/ Legacy.scheduledTime req = TimeAbsent
  \/ (exists t, Legacy.scheduledTime req = TimeAt t /\ t <= clock e) ->
  exists error, Legacy.post_schedule e req w = (Status400 error, w).
Proof.
  unfold Legacy.post_schedule. intros -> H.
  destruct (string_falsy (Legacy.phoneNumber req) || string_falsy text
            || time_falsy (Legacy.scheduledTime req)) eqn:Hmissing;
    [ eexists; reflexivity | ].
  destruct (date_not_after (new_Date (Legacy.scheduledTime req)) (clock e)) eqn:Hdate;
    [ eexists; reflexivity | ].
  destruct H as [H | [H | [H | [t [H Hpast]]]]].
  - rewrite H in Hmissing. discriminate.
  - rewrite H. eexists; reflexivity.
  - rewrite H in Hmissing. simpl in Hmissing.
    rewrite orb_true_r in Hmissing. discriminate.
  - rewrite H in Hdate. simpl in Hdate. apply Z.leb_le in Hpast. congruence.
Qed.

(** C5, as the code has it.  A request with an empty destination, an
    empty list of messages, no target time, or a target time not later
    than the clock is answered 400 and the server state is left as it
    was.  The list of messages is tested as it arrives, without trimming
    and without dropping blank entries; only the earlier handler, whose
    request carries one text cut at the slashes, trims the pieces and
    drops the blank ones before it tests for emptiness. *)
Theorem schedule_validation (e : Env) (w : World) :
  (forall req : ScheduleReq,
     phoneNumber req = EmptyString
     \/ messages req = []
     \/ scheduledTime req = TimeAbsent
     \/ (exists t, scheduledTime req = TimeAt t /\ t <= clock e) ->
     exists error, post_schedule e req w = (Status400 error, w))
  /\ (forall (req : Legacy.ScheduleReq) (text : string),
        Legacy.message req = Some text ->
        Legacy.phoneNumber req = EmptyString
        \/ Legacy.split_messages text = []
        \/ Legacy.scheduledTime req = TimeAbsent
        \/ (exists t, Legacy.scheduledTime req = TimeAt t /\ t <= clock e) ->
        exists error, Legacy.post_schedule e req w = (Status400 error, w)).
Proof.
  split.
  - intros req. apply post_schedule_rejects.
  - intros req text. apply legacy_post_schedule_rejects.
Qed.

Lemma schedule_validation_witness :
  let e := mkEnv 7000 "k3x9q2m1z" (fun _ => 1 # 2)%Q in
  (exists error,
     post_schedule e (mkReq "5511999" [JStr "Hey"] (TimeAt 7000)) three_due_world
     = (Status400 error, three_due_world))
  /\ (exists error,
        Legacy.post_schedule e (Legacy.mkReq "5511999" (Some " /  / ") (TimeAt 9000))
          three_due_world
        = (Status400 error, three_due_world)).
Proof.
  intros e. split.
  - apply (proj1 (schedule_validation e three_due_world)).
    right; right; right. exists 7000. simpl. split; [ reflexivity | lia ].
  - apply (proj2 (schedule_validation e three_due_world) _ " /  / ");
      [ reflexivity | ].
    right; left. reflexivity.
Defined.

(** C5 as stated fails: a list holding one blank message is empty after
    trimming and dropping blank entries, and the request is accepted and
    its row written. *)
Lemma blank_messages_are_scheduled :
  let e := mkEnv 0 "k3x9q2m1z" (fun _ => 1 # 2)%Q in
  let req := mkReq "5511999@c.us" [JStr "   "] (TimeAt 5000) in
  trimmed_nonblank (messages req) = []
  /\ fst (post_schedule e req initial_world) = Scheduled200 1 [1]
  /\ rows (db (snd (post_schedule e req initial_world)))
     = [mkRow 1 "5511999@c.us" "   " 5000 0 false "0k3x9q2m1z"].
Proof. repeat split. Qed.

(** ** A new time is taken as it comes *)

Lemma put_scheduled_isReady (i t : Z) (w : World) :
  isReady (snd (put_scheduled i t w)) = isReady w.
Proof.
  unfold put_scheduled, update_scheduled_time.
  destruct (Nat.ltb 0 _); reflexivity.
Qed.



(** ** The rows written by a scheduling request *)

Section ForEach.

Variable e : Env.
Variable phone : string.
Variable base : Z.
Variable batch : string.

(** The loop over texts only: every insert succeeds.  The rows are
    appended in the order of the texts, the first at [base] plus the
    delay carried in, each next one later than the one before it by the
    typing delay of the text before it. *)
Lemma forEach_texts (texts : list string) :
  forall (k : nat) (cum : Z) (ids : list Z) (d : DB),
  exists new : list Row,
    forEach_schedule e phone (Some base) batch (map JStr texts) k cum ids d
    = (mkDB (rows d ++ new) (sqlite_sequence d + Z.of_nat (List.length texts)),
       Normal (ids ++ map id new))
    /\ map message new = texts
    /\ Forall (fun r => batch_id r = batch /\ sent r = false
                        /\ phone_number r = phone) new
    /\ (forall r0, nth_error new 0 = Some r0 -> scheduled_time r0 = base + cum)
    /\ (forall (j : nat) (rp rn : Row) (m : string),
          nth_error new j = Some rp -> nth_error new (S j) = Some rn ->
          nth_error texts j = Some m ->
          scheduled_time rn
          = scheduled_time rp
            + calculateTypingDelay (Z.of_nat (String.length m))
                (rnd e (2 * (k + j))) (rnd e (2 * (k + j) + 1))).
Proof.
  induction texts as [ | m rest IH ]; intros k cum ids d.
  - exists []. simpl. rewrite !app_nil_r, Z.add_0_r.
    destruct d; simpl. repeat split; try constructor.
    + intros r0 H; discriminate.
    + intros [ | j ] rp rn m0 H; discriminate.
  - cbn [map forEach_schedule insert_message].
    match goal with
    | |- context [forEach_schedule _ _ _ _ _ (S k) ?c ?i ?d1] =>
        remember c as cum' eqn:Hcum;
        destruct (IH (S k) cum' i d1) as [new [Hrun [Hmsg [Hall [Hfirst Hnext]]]]]
    end.
    exists (new_row e phone batch d m (base + cum) :: new).
    split; [ | split; [ | split; [ | split ] ] ].
    + rewrite Hrun. cbn [rows sqlite_sequence map id new_row].
      rewrite <- !app_assoc. cbn [app]. do 2 f_equal.
      cbn [List.length]. lia.
    + cbn [map message new_row]. rewrite Hmsg. reflexivity.
    + constructor; [ cbn; auto | exact Hall ].
    + intros r0 H. cbn in H. injection H as <-. reflexivity.
    + intros [ | j ] rp rn m0 Hp Hn Hm.
      * cbn in Hp, Hn, Hm. injection Hp as <-. injection Hm as <-.
        rewrite (Hfirst rn Hn). cbn [scheduled_time new_row].
        destruct rest as [ | m1 rest' ].
        { cbn in Hmsg. destruct new; [ discriminate | discriminate ]. }
        subst cum'. cbn [map js_length]. rewrite Nat.add_0_r. lia.
      * cbn in Hp, Hn, Hm.
        rewrite (Hnext j rp rn m0 Hp Hn Hm).
        replace (k + S j)%nat with (S k + j)%nat by lia. reflexivity.
Qed.

(** The loop over texts followed by a [null]: the inserts before the
    [null] succeed, its own insert fails and the loop is left by the
    exception; the rows written until then are in the table. *)
Lemma forEach_null (pre : list string) (post : list jsval) :
  forall (k : nat) (cum : Z) (ids : list Z) (d : DB),
  exists new : list Row,
    forEach_schedule e phone (Some base) batch
      (map JStr pre ++ JNull :: post) k cum ids d
    = (mkDB (rows d ++ new) (sqlite_sequence d + Z.of_nat (List.length pre)),
       Thrown "NOT NULL constraint failed: scheduled_messages.message")
    /\ map message new = pre
    /\ Forall (fun r => batch_id r = batch /\ sent r = false) new.
Proof.
  induction pre as [ | m rest IH ]; intros k cum ids d.
  - exists []. simpl. rewrite app_nil_r, Z.add_0_r. destruct d. auto.
  - cbn [map app forEach_schedule insert_message].
    match goal with
    | |- context [forEach_schedule _ _ _ _ _ (S k) ?c ?i ?d1] =>
        destruct (IH (S k) c i d1) as [new [Hrun [Hmsg Hall]]]
    end.
    exists (new_row e phone batch d m (base + cum) :: new).
    split; [ | split ].
    + rewrite Hrun. cbn [rows sqlite_sequence].
      rewrite <- app_assoc. cbn [app List.length]. do 2 f_equal. lia.
    + cbn [map message new_row]. rewrite Hmsg. reflexivity.
    + constructor; [ cbn; auto | exact Hall ].
Qed.

End ForEach.

Lemma string_falsy_false (s : string) : s <> EmptyString -> string_falsy s = false.
Proof. destruct s; [ congruence | reflexivity ]. Qed.

Lemma length_zero_false {A : Type} (l : list A) :
  l <> [] -> Nat.eqb (List.length l) 0 = false.
Proof. destruct l; [ congruence | reflexivity ]. Qed.



(** With every draw at 1/2 the three rows fall at 14:00:00, three seconds
    later, and six seconds after that. *)
Example readme_batch_times :
  map scheduled_time
      (rows (db (snd (post_schedule readme_env
                        (mkReq "5511999@c.us"
                               (map JStr ["Hey"; "How are you?"; "Want to hang out?"])
                               (TimeAt 50400000))
                        initial_world))))
  = [50400000; 50403000; 50409000].
Proof. reflexivity. Qed.

(** ** A write that fails in the middle of a batch *)

(** C2, as the code has it.  The rows of a batch are written one by one,
    outside any transaction.  When the write of a row fails (the message
    is [null], which the [NOT NULL] column refuses), the caller gets a 500
    with the error, no later row is written and nothing is broadcast; the
    rows written before the failing one stay in the table. *)
Theorem failed_write_keeps_earlier_rows (e : Env) (w : World) (phone : string)
    (pre : list string) (post : list jsval) (t : Z) :
  phone <> EmptyString -> clock e < t ->
  exists new : list Row,
    post_schedule e (mkReq phone (map JStr pre ++ JNull :: post) (TimeAt t)) w
    = (Status500 "NOT NULL constraint failed: scheduled_messages.message",
       with_db (mkDB (rows (db w) ++ new)
                     (sqlite_sequence (db w) + Z.of_nat (List.length pre)))
               w)
    /\ map message new = pre
    /\ Forall (fun r => batch_id r = make_batch_id e /\ sent r = false) new.
Proof.
  intros Hphone Hfuture.
  destruct (forEach_null e phone t (make_batch_id e) pre post 0 0 [] (db w))
    as [new [Hrun [Hmsg Hall]]].
  exists new. split; [ | split; [ exact Hmsg | exact Hall ] ].
  unfold post_schedule. cbn [phoneNumber messages scheduledTime].
  rewrite (string_falsy_false phone Hphone).
  rewrite length_zero_false by (destruct pre; discriminate).
  cbn [orb time_falsy new_Date date_not_after].
  replace (t <=? clock e) with false by (symmetry; apply Z.leb_gt; exact Hfuture).
  rewrite Hrun. reflexivity.
Qed.

Lemma failed_write_keeps_earlier_rows_witness :
  exists new : list Row,
    post_schedule readme_env
      (mkReq "5511999@c.us" (map JStr ["Hey"; "How are you?"] ++ JNull :: [JStr "Bye"])
             (TimeAt 50400000))
      initial_world
    = (Status500 "NOT NULL constraint failed: scheduled_messages.message",
       with_db (mkDB (rows (db initial_world) ++ new)
                     (sqlite_sequence (db initial_world) + Z.of_nat 2))
               initial_world)
    /\ map message new = ["Hey"; "How are you?"]
    /\ Forall (fun r => batch_id r = make_batch_id readme_env /\ sent r = false) new.
Proof.
  apply (failed_write_keeps_earlier_rows readme_env initial_world "5511999@c.us"
           ["Hey"; "How are you?"] [JStr "Bye"] 50400000).
  - discriminate.
  - reflexivity.
Defined.

(** C2 as stated fails: the second write of the batch fails, the caller
    gets the error, and the first row of the batch is in the table and in
    the pending list. *)
Lemma partial_batch_persists :
  let req := mkReq "5511999@c.us" [JStr "Hey"; JNull] (TimeAt 50400000) in
  let result := post_schedule readme_env req initial_world in
  fst result = Status500 "NOT NULL constraint failed: scheduled_messages.message"
  /\ rows (db initial_world) = []
  /\ get_scheduled (snd result)
     = [mkRow 1 "5511999@c.us" "Hey" 50400000 1000 false (make_batch_id readme_env)].
Proof. repeat split. Qed.

(** ** The sent flag and the deliveries over any history *)

Lemma sorted_snoc (l : list Z) (a : Z) :
  StronglySorted Z.lt l -> Forall (fun x => x < a) l ->
  StronglySorted Z.lt (l ++ [a]).
Proof.
  induction 1 as [ | x l Hs IH Hall ]; simpl; intros Hlt.
  - repeat constructor.
  - apply Forall_cons_iff in Hlt. destruct Hlt as [Hx Hlt].
    constructor; [ apply IH; exact Hlt | ].
    apply Forall_app. split; [ exact Hall | repeat constructor; exact Hx ].
Qed.

Lemma sorted_NoDup (l : list Z) : StronglySorted Z.lt l -> NoDup l.
Proof.
  induction 1 as [ | x l Hs IH Hall ]; constructor; [ | exact IH ].
  intros Hin. rewrite Forall_forall in Hall. specialize (Hall x Hin). lia.
Qed.

Lemma insert_message_ok (now : Z) (phone : string) (s : string) (t : Z)
    (batch : string) (d : DB) :
  db_ok d ->
  db_ok (mkDB (rows d ++ [mkRow (sqlite_sequence d + 1) phone s t
                                (1000 * datetime now) false batch])
              (sqlite_sequence d + 1)).
Proof.
  intros [Hs Hall]. split; cbn [rows sqlite_sequence].
  - rewrite map_app. cbn [map id]. apply sorted_snoc; [ exact Hs | ].
    rewrite Forall_forall in *. intros x Hx.
    apply in_map_iff in Hx. destruct Hx as [r [<- Hr]].
    specialize (Hall r Hr). simpl in Hall. lia.
  - apply Forall_app. split.
    + rewrite Forall_forall in *. intros r Hr. specialize (Hall r Hr).
      simpl in Hall. lia.
    + repeat constructor. cbn [id]. lia.
Qed.

Ltac nothing_written :=
  exists (@nil Row); simpl; rewrite app_nil_r;
  repeat match goal with
         | |- _ /\ _ => split
         | |- Forall _ [] => constructor
         | |- _ <= _ => lia
         | |- _ => auto
         end.

(** Whatever the messages and however the loop ends, it only appends
    unsent rows with rowids above the old counter. *)
Lemma forEach_grows (e : Env) (phone : string) (date : option Z) (batch : string)
    (msgs : list jsval) :
  forall (k : nat) (cum : Z) (ids : list Z) (d : DB),
  exists new : list Row,
    rows (fst (forEach_schedule e phone date batch msgs k cum ids d)) = rows d ++ new
    /\ sqlite_sequence d
       <= sqlite_sequence (fst (forEach_schedule e phone date batch msgs k cum ids d))
    /\ Forall (fun r => sent r = false /\ sqlite_sequence d < id r) new
    /\ (db_ok d -> db_ok (fst (forEach_schedule e phone date batch msgs k cum ids d))).
Proof.
  induction msgs as [ | msg rest IH ]; intros k cum ids d.
  - nothing_written.
  - cbn [forEach_schedule].
    destruct date as [ base | ]; [ | nothing_written ].
    destruct msg as [ s | ]; [ | nothing_written ].
    cbn [insert_message].
    match goal with
    | |- context [forEach_schedule _ _ _ _ _ (S k) ?c ?i ?d1] =>
        destruct (IH (S k) c i d1) as [new [Hrows [Hseq [Hall Hok]]]];
        remember (forEach_schedule e phone (Some base) batch rest (S k) c i d1) as res
    end.
    cbn [rows sqlite_sequence] in Hrows, Hseq, Hall, Hok.
    eexists (_ :: new).
    split; [ rewrite Hrows, <- app_assoc; reflexivity | ].
    split; [ lia | ].
    split.
    + constructor; [ cbn; split; [ reflexivity | lia ] | ].
      rewrite Forall_forall in *. intros r Hr. specialize (Hall r Hr).
      split; [ tauto | lia ].
    + intros Hd. apply Hok. apply insert_message_ok. exact Hd.
Qed.

Lemma post_schedule_grows (e : Env) (req : ScheduleReq) (w : World) :
  exists new : list Row,
    rows (db (snd (post_schedule e req w))) = rows (db w) ++ new
    /\ sqlite_sequence (db w) <= sqlite_sequence (db (snd (post_schedule e req w)))
    /\ Forall (fun r => sent r = false /\ sqlite_sequence (db w) < id r) new
    /\ (db_ok (db w) -> db_ok (db (snd (post_schedule e req w))))
    /\ outbox (snd (post_schedule e req w)) = outbox w.
Proof.
  unfold post_schedule.
  destruct (string_falsy (phoneNumber req) || _ || time_falsy (scheduledTime req));
    [ nothing_written | ].
  destruct (date_not_after _ _); [ nothing_written | ].
  destruct (forEach_grows e (phoneNumber req) (new_Date (scheduledTime req))
              (make_batch_id e) (messages req) 0 0 [] (db w))
    as [new [Hrows [Hseq [Hall Hok]]]].
  exists new.
  destruct (forEach_schedule _ _ _ _ _ _ _ _ _) as [d' [ ids | err ]];
    cbn [fst snd db with_db broadcast_scheduled outbox] in *; auto.
Qed.

(** A map over the table that keeps rowids and never clears a sent flag,
    and a filter of the table, both keep the table and the deliveries in
    step. *)
Lemma consistent_map (f : Row -> Row) (w w' : World) :
  (forall r, id (f r) = id r) ->
  (forall r, sent r = true -> sent (f r) = true) ->
  rows (db w') = map f (rows (db w)) ->
  sqlite_sequence (db w') = sqlite_sequence (db w) ->
  outbox w' = outbox w ->
  consistent w -> consistent w'.
Proof.
  intros Hid Hsent Hrows Hseq Hout [[Hs Hall] [Hnd Hdel]].
  unfold consistent, db_ok, delivered in *. rewrite Hrows, Hseq, Hout.
  split; [ split | split ].
  - rewrite (map_id_update f _ Hid). exact Hs.
  - rewrite Forall_forall in *. intros r' Hr'.
    apply in_map_iff in Hr'. destruct Hr' as [r [<- Hr]].
    rewrite Hid. apply Hall. exact Hr.
  - exact Hnd.
  - intros i Hi. destruct (Hdel i Hi) as [Hle Hrs]. split; [ exact Hle | ].
    intros r' Hr' Hi'. apply in_map_iff in Hr'. destruct Hr' as [r [<- Hr]].
    rewrite Hid in Hi'. apply Hsent. apply (Hrs r Hr Hi').
Qed.

Lemma consistent_filter (g : Row -> bool) (w w' : World) :
  rows (db w') = filter g (rows (db w)) ->
  sqlite_sequence (db w') = sqlite_sequence (db w) ->
  outbox w' = outbox w ->
  consistent w -> consistent w'.
Proof.
  intros Hrows Hseq Hout [[Hs Hall] [Hnd Hdel]].
  unfold consistent, db_ok, delivered in *. rewrite Hrows, Hseq, Hout.
  split; [ split | split ].
  - apply sorted_filter. exact Hs.
  - rewrite Forall_forall in *. intros r Hr. apply filter_In in Hr.
    apply Hall. tauto.
  - exact Hnd.
  - intros i Hi. destruct (Hdel i Hi) as [Hle Hrs]. split; [ exact Hle | ].
    intros r Hr. apply filter_In in Hr. apply Hrs. tauto.
Qed.

Lemma consistent_schedule (e : Env) (req : ScheduleReq) (w : World) :
  consistent w -> consistent (snd (post_schedule e req w)).
Proof.
  intros [Hok [Hnd Hdel]].
  destruct (post_schedule_grows e req w) as [new [Hrows [Hseq [Hall [Hok' Hout]]]]].
  unfold consistent, delivered in *. rewrite Hout.
  split; [ apply Hok'; exact Hok | split; [ exact Hnd | ] ].
  intros i Hi. destruct (Hdel i Hi) as [Hle Hrs]. split; [ lia | ].
  intros r Hr Hid. rewrite Hrows in Hr. apply in_app_or in Hr.
  destruct Hr as [Hr | Hr]; [ apply Hrs; assumption | ].
  rewrite Forall_forall in Hall. specialize (Hall r Hr). lia.
Qed.

Lemma consistent_reschedule (i t : Z) (w : World) :
  consistent w -> consistent (snd (put_scheduled i t w)).
Proof.
  apply (consistent_map
           (fun r => if pending_with_id i r then set_scheduled_time t r else r)).
  - intros r. destruct (pending_with_id i r); reflexivity.
  - intros r Hs. destruct (pending_with_id i r); [ exact Hs | exact Hs ].
  - apply put_scheduled_rows.
  - unfold put_scheduled, update_scheduled_time. destruct (Nat.ltb 0 _); reflexivity.
  - unfold put_scheduled, update_scheduled_time. destruct (Nat.ltb 0 _); reflexivity.
Qed.

Lemma consistent_delete (i : Z) (w : World) :
  consistent w -> consistent (snd (delete_scheduled i w)).
Proof.
  apply (consistent_filter (fun r => negb (pending_with_id i r)));
    unfold delete_scheduled, delete_message; destruct (Nat.ltb 0 _); reflexivity.
Qed.

Lemma consistent_delete_batch (b : string) (w : World) :
  consistent w -> consistent (snd (delete_scheduled_batch b w)).
Proof.
  apply (consistent_filter (fun r => negb (pending_in_batch b r))); reflexivity.
Qed.

Lemma delivered_after_tick (now : Z) (tr : Transport) (w : World) :
  isReady w = true ->
  delivered (cron_tick now tr w)
  = delivered w ++ map id (filter tr (select_due now (db w))).
Proof.
  intros Hready. unfold delivered.
  rewrite (cron_tick_outbox now tr w Hready), filter_app, map_app. f_equal.
  induction (select_due now (db w)) as [ | m l IH ]; simpl; [ reflexivity | ].
  destruct (tr m); simpl; rewrite IH; reflexivity.
Qed.

Lemma consistent_tick (now : Z) (tr : Transport) (w : World) :
  consistent w -> consistent (cron_tick now tr w).
Proof.
  intros Hc. destruct (isReady w) eqn:Hready;
    [ | unfold cron_tick; rewrite Hready; exact Hc ].
  pose proof Hc as [Hok [Hnd Hdel]].
  pose proof (cron_tick_rows now tr w Hready Hok) as Hrows.
  assert (Hseq : sqlite_sequence (db (cron_tick now tr w)) = sqlite_sequence (db w)).
  { unfold cron_tick. rewrite Hready. apply loop_sequence. }
  set (f := fun r => if is_due now r && tr r then set_sent r else r) in Hrows.
  assert (Hid : forall r, id (f r) = id r).
  { intros r. unfold f. destruct (is_due now r && tr r); reflexivity. }
  assert (Hsent : forall r, sent r = true -> sent (f r) = true).
  { intros r Hs. unfold f. destruct (is_due now r && tr r); [ reflexivity | exact Hs ]. }
  assert (Hnew : forall i, In i (map id (filter tr (select_due now (db w)))) ->
                 exists m, In m (rows (db w)) /\ id m = i
                           /\ is_due now m = true /\ tr m = true).
  { intros i Hi. apply in_map_iff in Hi. destruct Hi as [m [Hm Hin]].
    apply filter_In in Hin. destruct Hin as [Hin Htr].
    unfold select_due in Hin. apply filter_In in Hin. exists m. tauto. }
  unfold consistent. rewrite (delivered_after_tick now tr w Hready).
  split; [ | split ].
  - destruct Hok as [Hs Hall]. unfold db_ok. rewrite Hrows, Hseq. split.
    + rewrite (map_id_update f _ Hid). exact Hs.
    + rewrite Forall_forall in *. intros r' Hr'.
      apply in_map_iff in Hr'. destruct Hr' as [r [<- Hr]].
      rewrite Hid. apply Hall. exact Hr.
  - apply NoDup_app.
    + exact Hnd.
    + apply sorted_NoDup. do 2 apply sorted_filter. apply Hok.
    + intros i Hold Hfresh. destruct (Hnew i Hfresh) as [m [Hm [Hmi [Hdue _]]]].
      destruct (Hdel i Hold) as [_ Hrs]. specialize (Hrs m Hm Hmi).
      unfold is_due in Hdue. rewrite Hrs in Hdue. discriminate.
  - intros i Hi. rewrite Hseq, Hrows. apply in_app_or in Hi.
    destruct Hi as [Hold | Hfresh].
    + destruct (Hdel i Hold) as [Hle Hrs]. split; [ exact Hle | ].
      intros r' Hr' Hi'. apply in_map_iff in Hr'. destruct Hr' as [r [<- Hr]].
      rewrite Hid in Hi'. apply Hsent. apply (Hrs r Hr Hi').
    + destruct (Hnew i Hfresh) as [m [Hm [Hmi [Hdue Htr]]]]. split.
      * destruct Hok as [_ Hall]. rewrite Forall_forall in Hall.
        specialize (Hall m Hm). lia.
      * intros r' Hr' Hi'. apply in_map_iff in Hr'. destruct Hr' as [r [<- Hr]].
        rewrite Hid in Hi'.
        assert (r = m) by (apply (db_ok_ids_inj _ Hok); congruence).
        subst r. unfold f. rewrite Hdue, Htr. reflexivity.
Qed.

Lemma consistent_step (w : World) (o : Op) :
  consistent w -> consistent (apply_op w o).
Proof.
  destruct o as [ e req | i t | i | b | now tr | ready ]; cbn [apply_op].
  - apply consistent_schedule.
  - apply consistent_reschedule.
  - apply consistent_delete.
  - apply consistent_delete_batch.
  - apply consistent_tick.
  - intros H; exact H.
Qed.

Lemma consistent_run (ops : list Op) :
  forall w, consistent w -> consistent (run_ops ops w).
Proof.
  unfold run_ops. induction ops as [ | o ops IH ]; intros w Hc; simpl.
  - exact Hc.
  - apply IH. apply consistent_step. exact Hc.
Qed.

Lemma consistent_initial : consistent initial_world.
Proof.
  unfold consistent, db_ok, delivered; simpl.
  repeat split; try constructor; intros; contradiction.
Qed.

(** No operation takes a sent row out of the table or changes it. *)
Lemma sent_row_stays (w : World) (o : Op) (r : Row) :
  In r (rows (db w)) -> sent r = true -> In r (rows (db (apply_op w o))).
Proof.
  intros Hin Hs.
  destruct o as [ e req | i t | i | b | now tr | ready ]; cbn [apply_op].
  - destruct (post_schedule_grows e req w) as [new [Hrows _]].
    rewrite Hrows. apply in_or_app. left. exact Hin.
  - rewrite put_scheduled_rows. apply in_map_iff. exists r. split; [ | exact Hin ].
    unfold pending_with_id. rewrite Hs, andb_false_r. reflexivity.
  - unfold delete_scheduled, delete_message. destruct (Nat.ltb 0 _);
      cbn [snd db with_db broadcast_scheduled rows];
      apply filter_In; (split; [ exact Hin | ]);
      unfold pending_with_id; rewrite Hs, andb_false_r; reflexivity.
  - cbn. apply filter_In. split; [ exact Hin | ].
    unfold pending_in_batch. rewrite Hs, andb_false_r. reflexivity.
  - unfold cron_tick. destruct (isReady w); [ | exact Hin ].
    rewrite loop_rows. apply in_map_iff. exists r. split; [ | exact Hin ].
    rewrite (set_sent_sent r Hs). destruct (marked_by _ _ _); reflexivity.
  - exact Hin.
Qed.

(** C6, as the code has it.  Over any history of requests and of runs of
    the dispatcher that each finish before the next operation starts:
    rowids stay distinct, a row that is marked sent stays in the table
    unchanged through every later operation (so no sent flag goes back to
    false), and no entry has two resolved sends. *)
Theorem sent_is_final_and_delivered_once (w0 : World) (ops : list Op) :
  consistent w0 ->
  NoDup (map id (rows (db (run_ops ops w0))))
  /\ NoDup (delivered (run_ops ops w0))
  /\ (forall (o : Op) (r : Row),
        In r (rows (db (run_ops ops w0))) -> sent r = true ->
        In r (rows (db (apply_op (run_ops ops w0) o)))
        /\ forall r', In r' (rows (db (apply_op (run_ops ops w0) o))) ->
                      id r' = id r -> r' = r).
Proof.
  intros Hc0. pose proof (consistent_run ops w0 Hc0) as Hc.
  split; [ apply sorted_NoDup; apply Hc | split; [ apply Hc | ] ].
  intros o r Hin Hs.
  pose proof (sent_row_stays _ o r Hin Hs) as Hstay.
  split; [ exact Hstay | ].
  intros r' Hr' Hid.
  pose proof (consistent_step _ o Hc) as [Hok' _].
  apply (db_ok_ids_inj _ Hok'); assumption.
Qed.

Lemma sent_is_final_and_delivered_once_witness :
  NoDup (delivered (run_ops busy_history initial_world))
  /\ delivered (run_ops busy_history initial_world) = [1]
  /\ map sent (rows (db (run_ops busy_history initial_world))) = [true].
Proof.
  split; [ | split; reflexivity ].
  apply (sent_is_final_and_delivered_once initial_world busy_history).
  unfold consistent, db_ok, delivered; simpl.
  repeat split; try constructor; intros; contradiction.
Defined.

(** *** The event loop agrees with a run that is left alone *)

Lemma solo_loop (tr : Transport) (snapshot : list Row) :
  forall w : World,
  run_loop (solo_events 0 tr snapshot) (w, [next_turn snapshot])
  = (fold_left (send_one tr) snapshot w, [TickDone]).
Proof.
  unfold run_loop.
  induction snapshot as [ | msg rest IH ]; intros w; [ reflexivity | ].
  cbn [solo_events next_turn fold_left]. unfold send_one at 2.
  destruct (tr msg); cbn [fold_left loop_step nth_error set_nth]; apply IH.
Qed.

Lemma solo_tick (now : Z) (tr : Transport) (w : World) :
  isReady w = true ->
  run_loop (CronFires now :: solo_events 0 tr (select_due now (db w))) (w, [])
  = (cron_tick now tr w, [TickDone]).
Proof.
  intros Hready. unfold run_loop. cbn [fold_left loop_step].
  rewrite Hready. cbn [app]. fold (run_loop (solo_events 0 tr (select_due now (db w)))
                                     (w, [next_turn (select_due now (db w))])).
  rewrite solo_loop. unfold cron_tick. rewrite Hready. reflexivity.
Qed.

(** C6 as stated fails under overlap: the cron fires a second time while
    the first run still waits for its send of entry 1; both runs have read
    entry 1 as due, both sends resolve, and entry 1 has been sent twice. *)
Lemma overlapping_runs_send_twice :
  let events := [CronFires 5000; CronFires 10000;
                 SendSettles 0 true; SendSettles 1 true] in
  let after := fst (run_loop events (late_first_world, [])) in
  consistent late_first_world
  /\ map (fun c => (id (call_row c), call_ok c)) (outbox after)
     = [(1, true); (1, true)]
  /\ ~ NoDup (delivered after).
Proof.
  split; [ | split ].
  - apply consistent_run. apply consistent_initial.
  - reflexivity.
  - simpl. intros H. apply NoDup_cons_iff in H. destruct H as [H _].
    apply H. left. reflexivity.
Qed.

(** * Further properties of the server *)

Lemma filter_keeps_all {T : Type} (keep : T -> bool) (items : list T) :
  (forall x, In x items -> keep x = true) -> filter keep items = items.
Proof.
  intros Hall. induction items as [ | x items IH ]; [ reflexivity | ].
  cbn [filter]. rewrite (Hall x (or_introl eq_refl)).
  rewrite IH; [ reflexivity | ].
  intros y Hy. exact (Hall y (or_intror Hy)).
Qed.

(** ** Deleting one entry *)



(** ** The pending list *)

Lemma insert_by_time_perm (r : Row) (l : list Row) :
  Permutation (insert_by_time r l) (r :: l).
Proof.
  induction l as [ | x l IH ]; simpl; [ reflexivity | ].
  destruct (scheduled_time r <=? scheduled_time x); [ reflexivity | ].
  rewrite IH. apply perm_swap.
Qed.


(** ** The chat id the dispatcher sends to *)

Lemma includes_at_append (a b : string) :
  includes_at (String.append a b) = includes_at a || includes_at b.
Proof.
  induction a as [ | c a IH ]; simpl; [ reflexivity | ].
  rewrite IH, orb_assoc. reflexivity.
Qed.

Lemma keep_digits_all_digits (s : string) : all_digits (keep_digits s) = true.
Proof.
  induction s as [ | c s IH ]; simpl; [ reflexivity | ].
  destruct (is_digit c) eqn:E; simpl; [ rewrite E; exact IH | exact IH ].
Qed.

(** A stored number with an ['@'] is used as it is; any other is cut down
    to its digits and given the suffix [@c.us].  Either way the chat id
    holds an ['@'], and normalising it again changes nothing. *)
Theorem chat_id_is_normal (phone : string) :
  includes_at (chat_id_of phone) = true
  /\ chat_id_of (chat_id_of phone) = chat_id_of phone
  /\ (includes_at phone = true -> chat_id_of phone = phone)
  /\ (includes_at phone = false ->
      exists digits, chat_id_of phone = String.append digits "@c.us"
                     /\ all_digits digits = true
                     /\ digits = keep_digits phone).
Proof.
  assert (Hat : includes_at (chat_id_of phone) = true).
  { unfold chat_id_of. destruct (includes_at phone) eqn:E; [ exact E | ].
    rewrite includes_at_append. apply orb_true_r. }
  split; [ exact Hat | split; [ | split ] ].
  - unfold chat_id_of at 1. rewrite Hat. reflexivity.
  - intros H. unfold chat_id_of. rewrite H. reflexivity.
  - intros H. exists (keep_digits phone). unfold chat_id_of. rewrite H.
    split; [ reflexivity | split; [ apply keep_digits_all_digits | reflexivity ] ].
Qed.

Lemma chat_id_is_normal_witness :
  chat_id_of "120363@g.us" = "120363@g.us"
  /\ exists digits, chat_id_of "+55 (11) 98765-4321" = String.append digits "@c.us"
                    /\ all_digits digits = true
                    /\ digits = keep_digits "+55 (11) 98765-4321".
Proof.
  split.
  - apply (proj1 (proj2 (proj2 (chat_id_is_normal "120363@g.us")))). reflexivity.
  - apply (proj2 (proj2 (proj2 (chat_id_is_normal "+55 (11) 98765-4321")))).
    reflexivity.
Defined.

(** ** A time that does not parse *)

(** A request whose time is present but does not parse passes both
    validation tests; [toISOString] then throws in the first turn of the
    loop, the answer is 500 and nothing is written or broadcast. *)
Theorem unparsable_time_is_500 (e : Env) (phone : string) (msgs : list jsval)
    (w : World) :
  phone <> EmptyString -> msgs <> [] ->
  post_schedule e (mkReq phone msgs TimeInvalid) w
  = (Status500 "Invalid time value", w).
Proof.
  intros Hphone Hmsgs. unfold post_schedule. cbn [phoneNumber messages scheduledTime].
  rewrite (string_falsy_false phone Hphone), (length_zero_false msgs Hmsgs).
  cbn [orb time_falsy new_Date date_not_after].
  destruct msgs as [ | m rest ]; [ congruence | ]. cbn [forEach_schedule].
  destruct w as [d rdy lg ob]; reflexivity.
Qed.

Lemma unparsable_time_is_500_witness :
  post_schedule readme_env (mkReq "5511999" [JStr "Hey"] TimeInvalid) three_due_world
  = (Status500 "Invalid time value", three_due_world).
Proof.
  apply (unparsable_time_is_500 readme_env "5511999" [JStr "Hey"] three_due_world);
    discriminate.
Defined.

(** ** What a run of the dispatcher touches *)

(** A run of the dispatcher writes nothing but sent flags: up to those
    flags the table is the same before and after, row by row, and the
    rowid counter does not move.  On a server that is not connected the
    run changes nothing at all. *)
Theorem tick_writes_only_sent_flags (now : Z) (tr : Transport) (w : World) :
  map set_sent (rows (db (cron_tick now tr w))) = map set_sent (rows (db w))
  /\ sqlite_sequence (db (cron_tick now tr w)) = sqlite_sequence (db w)
  /\ (isReady w = false -> cron_tick now tr w = w).
Proof.
  unfold cron_tick. destruct (isReady w) eqn:Hready.
  - split; [ | split; [ apply loop_sequence | discriminate ] ].
    rewrite loop_rows, map_map. apply map_ext. intros r.
    destruct (marked_by _ _ _); reflexivity.
  - repeat split.
Qed.

Lemma tick_writes_only_sent_flags_witness :
  cron_tick 10000 (fun _ => true) initial_world = initial_world.
Proof.
  apply (proj2 (proj2 (tick_writes_only_sent_flags 10000 (fun _ => true) initial_world))).
  reflexivity.
Defined.

(** ** The rows of one batch *)

Lemma post_schedule_valid (e : Env) (phone : string) (msgs : list jsval) (t : Z)
    (w : World) :
  phone <> EmptyString -> msgs <> [] -> clock e < t ->
  post_schedule e (mkReq phone msgs (TimeAt t)) w
  = match forEach_schedule e phone (Some t) (make_batch_id e) msgs 0 0 [] (db w) with
    | (d', Normal insertedIds) =>
        (Scheduled200 (List.length msgs) insertedIds,
         broadcast_scheduled (with_db d' w))
    | (d', Thrown error) => (Status500 error, with_db d' w)
    end.
Proof.
  intros Hphone Hmsgs Hfuture. unfold post_schedule.
  cbn [phoneNumber messages scheduledTime].
  rewrite (string_falsy_false phone Hphone), (length_zero_false msgs Hmsgs).
  cbn [orb time_falsy new_Date date_not_after].
  replace (t <=? clock e) with false by (symmetry; apply Z.leb_gt; exact Hfuture).
  reflexivity.
Qed.

Lemma map_JStr_nonempty (texts : list string) : texts <> [] -> map JStr texts <> [].
Proof. destruct texts; [ congruence | discriminate ]. Qed.

(** The rowids the loop hands out are the next ones after the counter. *)
Lemma forEach_texts_ids (e : Env) (phone : string) (base : Z) (batch : string)
    (texts : list string) :
  forall (k : nat) (cum : Z) (ids : list Z) (d : DB),
  exists new : list Row,
    forEach_schedule e phone (Some base) batch (map JStr texts) k cum ids d
    = (mkDB (rows d ++ new) (sqlite_sequence d + Z.of_nat (List.length texts)),
       Normal (ids ++ map id new))
    /\ map id new
       = map (fun j => sqlite_sequence d + 1 + Z.of_nat j)
             (List.seq 0 (List.length texts)).
Proof.
  induction texts as [ | m rest IH ]; intros k cum ids d.
  - exists []. simpl. rewrite !app_nil_r, Z.add_0_r. destruct d; auto.
  - cbn [map forEach_schedule insert_message].
    match goal with
    | |- context [forEach_schedule _ _ _ _ _ (S k) ?c ?i ?d1] =>
        destruct (IH (S k) c i d1) as [new [Hrun Hids]]
    end.
    exists (new_row e phone batch d m (base + cum) :: new). split.
    + rewrite Hrun. cbn [rows sqlite_sequence map id new_row].
      rewrite <- !app_assoc. cbn [app List.length]. do 2 f_equal. lia.
    + cbn [map id new_row List.length List.seq]. rewrite Hids.
      cbn [sqlite_sequence]. f_equal; [ simpl; lia | ].
      rewrite <- seq_shift, map_map. apply map_ext. intros j. lia.
Qed.

(** A valid request is answered with the count of its texts and the
    rowids written, which are the next ones after the counter, in order.
    The rows appended carry the texts in their order, the destination of
    the request and one batch id, and are unsent. *)
Theorem scheduled_rows_are_one_batch (e : Env) (w : World) (phone : string)
    (texts : list string) (t : Z) :
  phone <> EmptyString -> texts <> [] -> clock e < t ->
  fst (post_schedule e (mkReq phone (map JStr texts) (TimeAt t)) w)
  = Scheduled200 (List.length texts)
      (map (fun j => sqlite_sequence (db w) + 1 + Z.of_nat j)
           (List.seq 0 (List.length texts)))
  /\ exists new : list Row,
       rows (db (snd (post_schedule e (mkReq phone (map JStr texts) (TimeAt t)) w)))
       = rows (db w) ++ new
       /\ map id new
          = map (fun j => sqlite_sequence (db w) + 1 + Z.of_nat j)
                (List.seq 0 (List.length texts))
       /\ map message new = texts
       /\ Forall (fun r => batch_id r = make_batch_id e
                           /\ phone_number r = phone /\ sent r = false) new.
Proof.
  intros Hphone Htexts Hfuture.
  rewrite (post_schedule_valid e phone (map JStr texts) t w Hphone
             (map_JStr_nonempty texts Htexts) Hfuture).
  destruct (forEach_texts e phone t (make_batch_id e) texts 0 0 [] (db w))
    as [new [Hrun [Hmsg [Hall _]]]].
  destruct (forEach_texts_ids e phone t (make_batch_id e) texts 0 0 [] (db w))
    as [new' [Hrun' Hids]].
  assert (new' = new).
  { rewrite Hrun in Hrun'. injection Hrun' as Hrows _.
    apply app_inv_head in Hrows. symmetry. exact Hrows. }
  subst new'. rewrite Hrun. cbn [fst snd app]. rewrite length_map, Hids.
  split; [ reflexivity | ].
  exists new. cbn [db with_db broadcast_scheduled rows].
  split; [ reflexivity | split; [ exact Hids | split; [ exact Hmsg | ] ] ].
  rewrite Forall_forall in *. intros r Hr. specialize (Hall r Hr). tauto.
Qed.

Lemma scheduled_rows_are_one_batch_witness :
  fst (post_schedule readme_env
         (mkReq "5511999@c.us" (map JStr ["Hey"; "How are you?"]) (TimeAt 50400000))
         three_due_world)
  = Scheduled200 2 [4; 5].
Proof.
  apply (proj1 (scheduled_rows_are_one_batch readme_env three_due_world
                  "5511999@c.us" ["Hey"; "How are you?"] 50400000
                  ltac:(discriminate) ltac:(discriminate) eq_refl)).
Defined.

Lemma typing_delay_at_least_1000 (L : Z) (u1 u2 : Q) :
  0 <= L -> unit_draw u1 -> unit_draw u2 -> 1000 <= calculateTypingDelay L u1 u2.
Proof.
  intros HL H1 H2. pose proof (base_nonneg L u1 HL H1) as Hlow.
  unfold calculateTypingDelay. cbv zeta.
  change 1000 with (Qfloor (inject_Z 1000)) at 1.
  apply Qfloor_resp_le. destruct H2 as [H2 _].
  change (inject_Z 1000) with 1000%Q. lra.
Qed.



(** ** Scheduling a batch and deleting it again *)

(** When no row of the table carries the batch id a valid request is
    about to use, deleting that batch right after the request gives back
    the rows the table had before. *)
Theorem schedule_then_delete_batch (e : Env) (w : World) (phone : string)
    (texts : list string) (t : Z) :
  phone <> EmptyString -> texts <> [] -> clock e < t ->
  (forall r, In r (rows (db w)) -> batch_id r <> make_batch_id e) ->
  rows (db (snd (delete_scheduled_batch (make_batch_id e)
                   (snd (post_schedule e (mkReq phone (map JStr texts) (TimeAt t)) w)))))
  = rows (db w).
Proof.
  intros Hphone Htexts Hfuture Hfresh.
  rewrite (post_schedule_valid e phone (map JStr texts) t w Hphone
             (map_JStr_nonempty texts Htexts) Hfuture).
  destruct (forEach_texts e phone t (make_batch_id e) texts 0 0 [] (db w))
    as [new [Hrun [_ [Hall _]]]].
  rewrite Hrun. cbn. rewrite filter_app.
  rewrite filter_keeps_all.
  - rewrite hit_count_zero; [ apply app_nil_r | ].
    intros r Hr. rewrite Forall_forall in Hall.
    destruct (Hall r Hr) as [Hb [Hs _]].
    unfold pending_in_batch. rewrite Hb, Hs, String.eqb_refl. reflexivity.
  - intros r Hr. unfold pending_in_batch.
    replace (String.eqb (batch_id r) (make_batch_id e)) with false
      by (symmetry; apply String.eqb_neq; apply Hfresh; exact Hr).
    reflexivity.
Qed.

Lemma schedule_then_delete_batch_witness :
  rows (db (snd (delete_scheduled_batch (make_batch_id readme_env)
                   (snd (post_schedule readme_env
                           (mkReq "5511999@c.us" (map JStr ["Hey"; "How are you?"])
                                  (TimeAt 50400000))
                           three_due_world)))))
  = rows (db three_due_world).
Proof.
  apply (schedule_then_delete_batch readme_env three_due_world "5511999@c.us"
           ["Hey"; "How are you?"] 50400000).
  - discriminate.
  - discriminate.
  - reflexivity.
  - simpl. intros r [<- | [<- | [<- | []]]]; discriminate.
Defined.

(** ** The two scheduling handlers *)

Lemma split_messages_of_empty : Legacy.split_messages EmptyString = [].
Proof. reflexivity. Qed.



(** ** Cutting a text into messages *)

Lemma split_slash_nonempty (s : string) : Legacy.split_slash s <> [].
Proof.
  induction s as [ | c s IH ]; simpl; [ discriminate | ].
  destruct (Ascii.eqb c "/"); [ discriminate | ].
  destruct (Legacy.split_slash s); [ congruence | discriminate ].
Qed.

Lemma split_slash_no_slash (s piece : string) :
  In piece (Legacy.split_slash s) -> has_char "/" piece = false.
Proof.
  revert piece. induction s as [ | c s IH ]; simpl; intros piece Hin.
  - destruct Hin as [ <- | [] ]. reflexivity.
  - destruct (Ascii.eqb c "/") eqn:E.
    + destruct Hin as [ <- | Hin ]; [ reflexivity | apply IH; exact Hin ].
    + destruct (Legacy.split_slash s) as [ | h tl ] eqn:Hs.
      * destruct Hin as [ <- | [] ]. simpl. rewrite E. reflexivity.
      * destruct Hin as [ <- | Hin ].
        { simpl. rewrite E. apply IH. left. reflexivity. }
        { apply IH. right. exact Hin. }
Qed.

Lemma concat_cons_nonempty (sep x : string) (l : list string) :
  l <> [] ->
  String.concat sep (x :: l)
  = String.append x (String.append sep (String.concat sep l)).
Proof. destruct l; [ congruence | reflexivity ]. Qed.

Lemma concat_head_char (sep : string) (c : ascii) (h : string) (tl : list string) :
  String.concat sep (String c h :: tl) = String c (String.concat sep (h :: tl)).
Proof. destruct tl; reflexivity. Qed.

(** Putting the slashes back between the pieces gives the text again. *)
Lemma split_slash_concat (s : string) :
  String.concat "/" (Legacy.split_slash s) = s.
Proof.
  induction s as [ | c s IH ]; [ reflexivity | ].
  cbn [Legacy.split_slash]. destruct (Ascii.eqb_spec c "/") as [ -> | Hc ].
  - rewrite concat_cons_nonempty by apply split_slash_nonempty.
    rewrite IH. reflexivity.
  - destruct (Legacy.split_slash s) as [ | h tl ] eqn:Hs.
    + exfalso. apply (split_slash_nonempty s). exact Hs.
    + rewrite concat_head_char, IH. reflexivity.
Qed.

Lemma trim_start_no_slash (s : string) :
  has_char "/" s = false -> has_char "/" (Legacy.trim_start s) = false.
Proof.
  induction s as [ | c s IH ]; simpl; intros H; [ reflexivity | ].
  apply orb_false_iff in H. destruct H as [Hc Hs].
  destruct (Legacy.is_space c); [ apply IH; exact Hs | ].
  simpl. rewrite Hc. exact Hs.
Qed.

Lemma trim_end_no_slash (s : string) :
  has_char "/" s = false -> has_char "/" (Legacy.trim_end s) = false.
Proof.
  induction s as [ | c s IH ]; simpl; intros H; [ reflexivity | ].
  apply orb_false_iff in H. destruct H as [Hc Hs]. specialize (IH Hs).
  destruct (Legacy.trim_end s) as [ | c' t ].
  - destruct (Legacy.is_space c); simpl; [ reflexivity | rewrite Hc; reflexivity ].
  - cbn [has_char] in *. rewrite Hc. exact IH.
Qed.

Lemma trim_start_starts (s : string) :
  starts_with_space (Legacy.trim_start s) = false.
Proof.
  induction s as [ | c s IH ]; simpl; [ reflexivity | ].
  destruct (Legacy.is_space c) eqn:E; [ exact IH | simpl; exact E ].
Qed.

Lemma trim_end_ends (s : string) :
  ends_with_space (Legacy.trim_end s) = false.
Proof.
  induction s as [ | c s IH ]; simpl; [ reflexivity | ].
  destruct (Legacy.trim_end s) as [ | c' t ].
  - destruct (Legacy.is_space c) eqn:E; simpl; [ reflexivity | exact E ].
  - exact IH.
Qed.

Lemma trim_end_starts (s : string) :
  starts_with_space s = false -> starts_with_space (Legacy.trim_end s) = false.
Proof.
  destruct s as [ | c s ]; simpl; intros H; [ reflexivity | ].
  destruct (Legacy.trim_end s); [ rewrite H; simpl; exact H | exact H ].
Qed.



(** ** What the observers are told *)

(** Each of the four mutating handlers pushes the pending list exactly
    when it answers with success, and what it pushes is the list as the
    table has it after the change. *)
Theorem mutations_announce_pending_list (w : World) :
  (forall e req, announces w (post_schedule e req w))
  /\ (forall i t, announces w (put_scheduled i t w))
  /\ (forall i, announces w (delete_scheduled i w))
  /\ (forall b, announces w (delete_scheduled_batch b w)).
Proof.
  unfold announces. split; [ | split; [ | split ] ].
  - intros e req. unfold post_schedule.
    destruct (string_falsy (phoneNumber req) || _ || time_falsy (scheduledTime req));
      [ reflexivity | ].
    destruct (date_not_after _ _); [ reflexivity | ].
    destruct (forEach_schedule _ _ _ _ _ _ _ _ _) as [d' [ ids | err ]]; reflexivity.
  - intros i t. unfold put_scheduled, update_scheduled_time.
    destruct (Nat.ltb 0 _); reflexivity.
  - intros i. unfold delete_scheduled, delete_message.
    destruct (Nat.ltb 0 _); reflexivity.
  - intros b. reflexivity.
Qed.

(** ** An entry keeps its identity *)

Lemma counter_step (w : World) (o : Op) :
  sqlite_sequence (db w) <= sqlite_sequence (db (apply_op w o)).
Proof.
  destruct o as [ e req | i t | i | b | now tr | ready ]; cbn [apply_op].
  - destruct (post_schedule_grows e req w) as [new [_ [Hseq _]]]. exact Hseq.
  - unfold put_scheduled, update_scheduled_time. destruct (Nat.ltb 0 _); simpl; lia.
  - unfold delete_scheduled, delete_message. destruct (Nat.ltb 0 _); simpl; lia.
  - simpl. lia.
  - unfold cron_tick. destruct (isReady w); [ rewrite loop_sequence | ]; lia.
  - simpl. lia.
Qed.

Lemma counter_run (ops : list Op) :
  forall w, sqlite_sequence (db w) <= sqlite_sequence (db (run_ops ops w)).
Proof.
  unfold run_ops. induction ops as [ | o ops IH ]; intros w; simpl; [ lia | ].
  pose proof (counter_step w o). specialize (IH (apply_op w o)). lia.
Qed.

(** A row found after an operation under a rowid the counter had already
    passed comes from a row that was there before: same fixed part, and
    the very same row if that one was sent. *)
Lemma origin_step (w : World) (o : Op) (r' : Row) :
  In r' (rows (db (apply_op w o))) -> id r' <= sqlite_sequence (db w) ->
  exists r, In r (rows (db w)) /\ fixed_part r' = fixed_part r
            /\ (sent r = true -> r' = r).
Proof.
  intros Hin Hold.
  destruct o as [ e req | i t | i | b | now tr | ready ]; cbn [apply_op] in Hin.
  - destruct (post_schedule_grows e req w) as [new [Hrows [_ [Hall _]]]].
    rewrite Hrows in Hin. apply in_app_or in Hin. destruct Hin as [Hin | Hin].
    + exists r'. auto.
    + rewrite Forall_forall in Hall. specialize (Hall r' Hin). lia.
  - rewrite put_scheduled_rows in Hin. apply in_map_iff in Hin.
    destruct Hin as [r [<- Hr]]. exists r. split; [ exact Hr | ].
    unfold pending_with_id. destruct (sent r) eqn:Hs.
    + rewrite andb_false_r. auto.
    + rewrite andb_true_r. destruct (id r =? i); split; (reflexivity || discriminate).
  - assert (Hr : In r' (rows (db w))).
    { unfold delete_scheduled, delete_message in Hin.
      destruct (Nat.ltb 0 _); cbn in Hin; apply filter_In in Hin; tauto. }
    exists r'. auto.
  - cbn in Hin. apply filter_In in Hin. exists r'. tauto.
  - unfold cron_tick in Hin. destruct (isReady w); [ | exists r'; auto ].
    rewrite loop_rows in Hin. apply in_map_iff in Hin.
    destruct Hin as [r [<- Hr]]. exists r. split; [ exact Hr | ].
    destruct (marked_by _ _ _); split; try reflexivity.
    intros Hs. apply set_sent_sent. exact Hs.
  - exists r'. auto.
Qed.

(** Over any history of requests and dispatcher runs, a rowid that was in
    the table stays with its entry: whatever row carries it later has the
    same destination, text, creation time and batch id, and is the very
    same row if the entry had been sent.  In particular the rowid of a
    deleted entry is not given to a new one. *)
Theorem entry_identity_is_stable (w : World) (ops : list Op) (r r' : Row) :
  consistent w ->
  In r (rows (db w)) -> In r' (rows (db (run_ops ops w))) -> id r' = id r ->
  fixed_part r' = fixed_part r /\ (sent r = true -> r' = r).
Proof.
  intros Hc Hr. revert r'.
  induction ops as [ | o ops IH ] using rev_ind; intros r' Hr' Hid.
  - assert (r' = r) by (apply (db_ok_ids_inj (db w)); [ apply Hc | | | ]; assumption).
    subst r'. auto.
  - unfold run_ops in Hr'. rewrite fold_left_app in Hr'. cbn [fold_left] in Hr'.
    fold (run_ops ops w) in Hr'.
    assert (Hold : id r' <= sqlite_sequence (db (run_ops ops w))).
    { pose proof (counter_run ops w). destruct Hc as [[_ Hall] _].
      rewrite Forall_forall in Hall. specialize (Hall r Hr). lia. }
    destruct (origin_step _ o r' Hr' Hold) as [r1 [Hr1 [Hfix Hsame]]].
    assert (Hid1 : id r1 = id r).
    { unfold fixed_part in Hfix. injection Hfix as E _ _ _ _. congruence. }
    destruct (IH r1 Hr1 Hid1) as [Hfix1 Hsame1].
    split; [ congruence | ].
    intros Hs. specialize (Hsame1 Hs). subst r1. apply Hsame. exact Hs.
Qed.

Lemma entry_identity_is_stable_witness :
  let r := mkRow 2 "5511999" "How are you?" 4000 0 false "17a" in
  let r' := mkRow 2 "5511999" "How are you?" 7000 0 true "17a" in
  let ops := [OpReschedule 2 7000; OpDelete 1; OpTick 10000 (fun _ => true);
              OpSchedule readme_env (mkReq "5511" [JStr "new"] (TimeAt 50000))] in
  fixed_part r' = fixed_part r /\ (sent r = true -> r' = r).
Proof.
  intros r r' ops.
  apply (entry_identity_is_stable three_due_world ops r r').
  - unfold consistent, db_ok, delivered; simpl.
    repeat split; repeat constructor; simpl; try lia; intros; contradiction.
  - simpl. auto.
  - simpl. auto.
  - reflexivity.
Defined.

(** ** Favorites *)

Lemma insert_by_added_perm (f : Favorites.Favorite) (l : list Favorites.Favorite) :
  Permutation (Favorites.insert_by_added f l) (f :: l).
Proof.
  induction l as [ | x l IH ]; simpl; [ reflexivity | ].
  destruct (Favorites.added_at x <=? Favorites.added_at f); [ reflexivity | ].
  rewrite IH. apply perm_swap.
Qed.

Lemma insert_by_added_sorted (f : Favorites.Favorite) (l : list Favorites.Favorite) :
  Sorted (fun a b => Favorites.added_at b <= Favorites.added_at a) l ->
  Sorted (fun a b => Favorites.added_at b <= Favorites.added_at a)
         (Favorites.insert_by_added f l).
Proof.
  induction 1 as [ | y l Hs IH Hhd ]; simpl.
  - repeat constructor.
  - destruct (Favorites.added_at y <=? Favorites.added_at f) eqn:E.
    + apply Z.leb_le in E. repeat constructor; assumption.
    + apply Z.leb_gt in E. constructor; [ exact IH | ].
      destruct Hhd as [ | z l Hz ]; simpl.
      * constructor. lia.
      * destruct (Favorites.added_at z <=? Favorites.added_at f); constructor; lia.
Qed.

Lemma select_all_perm (t : Favorites.Table) :
  Permutation (Favorites.select_all t) (Favorites.favs t).
Proof.
  unfold Favorites.select_all.
  induction (Favorites.favs t) as [ | x l IH ]; simpl; [ constructor | ].
  rewrite insert_by_added_perm. constructor. exact IH.
Qed.

Lemma select_all_In (t : Favorites.Table) (f : Favorites.Favorite) :
  In f (Favorites.select_all t) <-> In f (Favorites.favs t).
Proof.
  split; apply Permutation_in; [ | symmetry ]; apply select_all_perm.
Qed.

(** [GET /api/favorites] returns every row of the table once, latest
    addition first. *)
Theorem favorites_list_is_sorted (s : Favorites.State) :
  Permutation (Favorites.get_favorites s) (Favorites.favs (Favorites.table s))
  /\ Sorted (fun a b => Favorites.added_at b <= Favorites.added_at a)
            (Favorites.get_favorites s).
Proof.
  split; [ apply select_all_perm | ].
  unfold Favorites.get_favorites, Favorites.select_all.
  induction (Favorites.favs (Favorites.table s)) as [ | x l IH ]; simpl.
  - constructor.
  - apply insert_by_added_sorted. exact IH.
Qed.

(** [POST /api/favorites] with texts for the chat id and the name answers
    success; the list then holds the rows of every other chat id as they
    were and, for this chat id, the new row alone, and the list pushed to
    the observers is that list.  With [null] for either text the statement
    fails, the answer is 500 and nothing changes. *)
Theorem favorite_post (now : Z) (c n : string) (g : bool) (s : Favorites.State) :
  fst (Favorites.post_favorite now (JStr c) (JStr n) g s) = Success200
  /\ (forall f,
        In f (Favorites.get_favorites
                (snd (Favorites.post_favorite now (JStr c) (JStr n) g s)))
        <-> (In f (Favorites.favs (Favorites.table s)) /\ Favorites.chat_id f <> c)
            \/ f = Favorites.mkFav
                     (Favorites.sqlite_sequence (Favorites.table s) + 1)
                     c n g (1000 * datetime now))
  /\ Favorites.pushed (snd (Favorites.post_favorite now (JStr c) (JStr n) g s))
     = Favorites.pushed s
       ++ [Favorites.get_favorites
             (snd (Favorites.post_favorite now (JStr c) (JStr n) g s))]
  /\ (forall name, exists error,
        Favorites.post_favorite now JNull name g s = (Status500 error, s))
  /\ (forall chatId, exists error,
        Favorites.post_favorite now chatId JNull g s = (Status500 error, s)).
Proof.
  split; [ reflexivity | split; [ | split; [ reflexivity | split ] ] ].
  - intros f.
    unfold Favorites.get_favorites, Favorites.post_favorite,
      Favorites.insert_or_replace.
    cbn [snd Favorites.table]. rewrite select_all_In. cbn [Favorites.favs].
    rewrite in_app_iff, filter_In, negb_true_iff, String.eqb_neq.
    simpl. intuition congruence.
  - intros name. eexists. reflexivity.
  - intros chatId. eexists. destruct chatId; reflexivity.
Qed.

(** [DELETE /api/favorites/:chatId] always answers success; afterwards the
    list holds exactly the rows of the other chat ids. *)
Theorem favorite_delete (c : string) (s : Favorites.State) :
  fst (Favorites.delete_favorite c s) = Success200
  /\ forall f,
       In f (Favorites.get_favorites (snd (Favorites.delete_favorite c s)))
       <-> In f (Favorites.favs (Favorites.table s)) /\ Favorites.chat_id f <> c.
Proof.
  split; [ reflexivity | ].
  intros f. unfold Favorites.get_favorites, Favorites.delete_favorite.
  cbn [snd Favorites.table]. rewrite select_all_In.
  unfold Favorites.delete_chat. cbn [Favorites.favs].
  rewrite filter_In, negb_true_iff, String.eqb_neq. tauto.
Qed.

Lemma chat_ids_of_kept (keep : Favorites.Favorite -> bool)
    (table : list Favorites.Favorite) :
  NoDup (map Favorites.chat_id table) ->
  NoDup (map Favorites.chat_id (filter keep table)).
Proof.
  intros Hdistinct. induction table as [ | fav table IH ]; [ constructor | ].
  cbn [map] in Hdistinct. apply NoDup_cons_iff in Hdistinct.
  destruct Hdistinct as [Hfav Hrest]. cbn [filter].
  destruct (keep fav); [ | exact (IH Hrest) ].
  cbn [map]. apply NoDup_cons; [ | exact (IH Hrest) ].
  intros Hkept. apply Hfav. apply in_map_iff in Hkept.
  destruct Hkept as [other [Hsame Hother]]. apply filter_In in Hother.
  rewrite <- Hsame. apply in_map. tauto.
Qed.

Lemma favorites_step_unique (s : Favorites.State) (o : Favorites.Op) :
  NoDup (map Favorites.chat_id (Favorites.favs (Favorites.table s))) ->
  NoDup (map Favorites.chat_id
             (Favorites.favs (Favorites.table (Favorites.apply_op s o)))).
Proof.
  intros H. destruct o as [ now chatId name g | c ]; cbn [Favorites.apply_op].
  - unfold Favorites.post_favorite, Favorites.insert_or_replace.
    destruct chatId as [ c | ]; [ | exact H ].
    destruct name as [ n | ]; [ | exact H ].
    cbn. rewrite map_app. cbn. apply NoDup_app.
    + apply chat_ids_of_kept. exact H.
    + repeat constructor. intros [].
    + intros a Ha [ <- | [] ]. apply in_map_iff in Ha.
      destruct Ha as [f [Hf Hin]]. apply filter_In in Hin.
      destruct Hin as [_ Hne]. apply negb_true_iff, String.eqb_neq in Hne.
      congruence.
  - cbn. apply chat_ids_of_kept. exact H.
Qed.

(** Whatever is added and removed, the table never holds two rows for one
    chat id. *)
Theorem favorites_one_row_per_chat (s : Favorites.State) (ops : list Favorites.Op) :
  NoDup (map Favorites.chat_id (Favorites.favs (Favorites.table s))) ->
  NoDup (map Favorites.chat_id
             (Favorites.favs (Favorites.table (Favorites.run_ops ops s)))).
Proof.
  revert s. unfold Favorites.run_ops.
  induction ops as [ | o ops IH ]; intros s H; simpl; [ exact H | ].
  apply IH. apply favorites_step_unique. exact H.
Qed.

Lemma favorites_one_row_per_chat_witness :
  NoDup (map Favorites.chat_id
           (Favorites.favs
              (Favorites.table
                 (Favorites.run_ops
                    [Favorites.Add 1000 (JStr "5511@c.us") (JStr "Ana") false;
                     Favorites.Add 2000 (JStr "120@g.us") (JStr "Family") true;
                     Favorites.Add 3000 (JStr "5511@c.us") (JStr "Ana Lima") false;
                     Favorites.Remove "120@g.us"]
                    Favorites.initial)))).
Proof.
  apply (favorites_one_row_per_chat Favorites.initial). simpl. constructor.
Defined.



(** ** The contact list *)

Section ContactList.

Variable localeCompare : string -> string -> Z.

Lemma insert_entry_perm (x : Contacts.Entry) (l : list Contacts.Entry) :
  Permutation (Contacts.insert_entry localeCompare x l) (x :: l).
Proof.
  induction l as [ | y l IH ]; simpl; [ reflexivity | ].
  destruct (Contacts.compare_entries localeCompare x y <=? 0); [ reflexivity | ].
  rewrite IH. apply perm_swap.
Qed.

Lemma sort_entries_perm (l : list Contacts.Entry) :
  Permutation (Contacts.sort_entries localeCompare l) l.
Proof.
  unfold Contacts.sort_entries.
  induction l as [ | x l IH ]; simpl; [ constructor | ].
  rewrite insert_entry_perm. constructor. exact IH.
Qed.

Lemma insert_entry_groups_first (x : Contacts.Entry) (groups : list Contacts.Entry) :
  forall others : list Contacts.Entry,
  Forall (fun a => Contacts.isGroup a = true) groups ->
  Forall (fun a => Contacts.isGroup a = false) others ->
  exists groups' others',
    Contacts.insert_entry localeCompare x (groups ++ others) = groups' ++ others'
    /\ Forall (fun a => Contacts.isGroup a = true) groups'
    /\ Forall (fun a => Contacts.isGroup a = false) others'.
Proof.
  induction groups as [ | g groups IH ]; intros others Hg Ho.
  - destruct (Contacts.isGroup x) eqn:Hx.
    + exists [x], others. split; [ | split; [ repeat constructor; exact Hx | exact Ho ] ].
      destruct others as [ | y others ]; [ reflexivity | ].
      apply Forall_cons_iff in Ho. destruct Ho as [Hy _].
      cbn [app Contacts.insert_entry]. unfold Contacts.compare_entries.
      rewrite Hx, Hy. reflexivity.
    + exists [], (Contacts.insert_entry localeCompare x others).
      split; [ reflexivity | split; [ constructor | ] ].
      apply Forall_forall. intros a Ha.
      apply (Permutation_in _ (insert_entry_perm x others)) in Ha.
      destruct Ha as [ <- | Ha ]; [ exact Hx | ].
      rewrite Forall_forall in Ho. apply Ho. exact Ha.
  - apply Forall_cons_iff in Hg. destruct Hg as [Hgg Hg].
    cbn [app Contacts.insert_entry].
    destruct (Contacts.compare_entries localeCompare x g <=? 0) eqn:E.
    + destruct (Contacts.isGroup x) eqn:Hx.
      * exists (x :: g :: groups), others.
        split; [ reflexivity | split; [ | exact Ho ] ].
        repeat constructor; assumption.
      * unfold Contacts.compare_entries in E. rewrite Hx, Hgg in E. discriminate.
    + destruct (IH others Hg Ho) as [groups' [others' [Heq [Hg' Ho']]]].
      exists (g :: groups'), others'. rewrite Heq.
      split; [ reflexivity | split; [ constructor; assumption | exact Ho' ] ].
Qed.

Lemma process_named (c : Contacts.Chat) (a : Contacts.Entry) :
  In a (Contacts.process c) -> Contacts.name a <> EmptyString.
Proof.
  unfold Contacts.process, Contacts.or_else.
  destruct (Contacts.chat_isGroup c).
  - intros [ <- | [] ]. cbn.
    destruct (Contacts.chat_name c); cbn; discriminate.
  - destruct (Contacts.isMe c); cbn; [ intros [] | ].
    intros [ <- | [] ]. cbn.
    destruct (Contacts.chat_name c); cbn; [ | discriminate ].
    destruct (Contacts.user c); cbn; discriminate.
Qed.

(** The list built from the chats holds one entry for every group and for
    every chat with someone else, none for the chat with oneself, each
    with a name that is not empty; sorting keeps every entry once and
    puts all groups before all other chats, whatever the locale makes of
    the names. *)
Theorem contact_list_groups_first (allChats : list Contacts.Chat) :
  map Contacts.id (Contacts.processed allChats)
  = map Contacts.serialized
        (filter (fun c => Contacts.chat_isGroup c || negb (Contacts.isMe c)) allChats)
  /\ Forall (fun a => Contacts.name a <> EmptyString) (Contacts.processed allChats)
  /\ Permutation (Contacts.sort_entries localeCompare (Contacts.processed allChats))
                 (Contacts.processed allChats)
  /\ exists groups others,
       Contacts.sort_entries localeCompare (Contacts.processed allChats)
       = groups ++ others
       /\ Forall (fun a => Contacts.isGroup a = true) groups
       /\ Forall (fun a => Contacts.isGroup a = false) others.
Proof.
  split; [ | split; [ | split; [ apply sort_entries_perm | ] ] ].
  - unfold Contacts.processed.
    induction allChats as [ | c l IH ]; [ reflexivity | ].
    cbn [flat_map filter]. rewrite map_app, IH. unfold Contacts.process.
    destruct (Contacts.chat_isGroup c); [ reflexivity | ].
    destruct (Contacts.isMe c); reflexivity.
  - apply Forall_forall. intros a Ha. unfold Contacts.processed in Ha.
    apply in_flat_map in Ha. destruct Ha as [c [_ Ha]].
    apply (process_named c). exact Ha.
  - unfold Contacts.sort_entries.
    induction (Contacts.processed allChats) as [ | x l IH ].
    + exists [], []. repeat split; constructor.
    + destruct IH as [groups [others [Heq [Hg Ho]]]].
      cbn [fold_right]. rewrite Heq. apply insert_entry_groups_first; assumption.
Qed.

(** A list loaded less than 30 seconds ago is handed out again without
    asking the client, and the cache stays as it is; after a disconnect
    the next load asks the client whatever the time; a failing load leaves
    the cache as it was. *)
Theorem chats_cache_window (now : Z) (c : Contacts.Cache) :
  (forall cached last getChats,
     Contacts.chatsCache c = Some cached ->
     Contacts.lastCacheUpdate c = Some last ->
     last <> 0 -> now - last < 30000 ->
     Contacts.loadChatsCache localeCompare now getChats c = (Normal cached, c))
  /\ (forall allChats,
        Contacts.loadChatsCache localeCompare now (Normal allChats)
          (Contacts.on_disconnected c)
        = (Normal (Contacts.sort_entries localeCompare (Contacts.processed allChats)),
           Contacts.mkCache
             (Some (Contacts.sort_entries localeCompare (Contacts.processed allChats)))
             (Some now)))
  /\ (forall error cached last,
        Contacts.chatsCache c = Some cached ->
        Contacts.lastCacheUpdate c = Some last ->
        30000 <= now - last ->
        Contacts.loadChatsCache localeCompare now (Thrown error) c = (Thrown error, c)).
Proof.
  split; [ | split ].
  - intros cached last getChats Hc Hl Hz Hfresh.
    unfold Contacts.loadChatsCache, Contacts.cache_fresh. rewrite Hc, Hl.
    replace (last =? 0) with false by (symmetry; apply Z.eqb_neq; exact Hz).
    replace (now - last <? 30000) with true by (symmetry; apply Z.ltb_lt; exact Hfresh).
    reflexivity.
  - intros allChats. reflexivity.
  - intros error cached last Hc Hl Hstale.
    unfold Contacts.loadChatsCache, Contacts.cache_fresh. rewrite Hc, Hl.
    replace (now - last <? 30000) with false by (symmetry; apply Z.ltb_ge; exact Hstale).
    rewrite andb_false_r. reflexivity.
Qed.

(** [GET /api/contacts] on a ready server with no cached list loads the
    chats and answers with the sorted list; for the next 30 seconds it
    gives the same answer and keeps the same cache whatever the client
    would return, even a failure.  While the client is not ready it
    answers 503 and leaves the cache alone. *)
Theorem contacts_served_from_cache (t0 now : Z) (allChats : list Contacts.Chat)
    (c : Contacts.Cache) :
  Contacts.chatsCache c = None -> t0 <> 0 -> now - t0 < 30000 ->
  fst (Contacts.get_contacts localeCompare true t0 (Normal allChats) c)
  = Contacts.Chats200
      (Contacts.sort_entries localeCompare (Contacts.processed allChats))
  /\ (forall getChats,
        Contacts.get_contacts localeCompare true now getChats
          (snd (Contacts.get_contacts localeCompare true t0 (Normal allChats) c))
        = Contacts.get_contacts localeCompare true t0 (Normal allChats) c)
  /\ (forall getChats,
        Contacts.get_contacts localeCompare false now getChats
          (snd (Contacts.get_contacts localeCompare true t0 (Normal allChats) c))
        = (Contacts.Unavailable503,
           snd (Contacts.get_contacts localeCompare true t0 (Normal allChats) c))).
Proof.
  intros Hc Hz Hfresh.
  assert (Hfirst : Contacts.get_contacts localeCompare true t0 (Normal allChats) c
                   = (Contacts.Chats200
                        (Contacts.sort_entries localeCompare
                           (Contacts.processed allChats)),
                      Contacts.mkCache
                        (Some (Contacts.sort_entries localeCompare
                                 (Contacts.processed allChats)))
                        (Some t0))).
  { unfold Contacts.get_contacts, Contacts.loadChatsCache. rewrite Hc. reflexivity. }
  rewrite Hfirst. cbn [fst snd].
  split; [ reflexivity | split; [ | reflexivity ] ].
  intros getChats. unfold Contacts.get_contacts. cbn [negb].
  set (sorted := Contacts.sort_entries localeCompare (Contacts.processed allChats)).
  rewrite (proj1 (chats_cache_window now (Contacts.mkCache (Some sorted) (Some t0)))
             sorted t0 getChats eq_refl eq_refl Hz Hfresh).
  reflexivity.
Qed.

End ContactList.

Lemma chats_cache_window_witness :
  let cached := [Contacts.mkEntry "120@g.us" "Family" None true] in
  let c := Contacts.mkCache (Some cached) (Some 100000) in
  Contacts.loadChatsCache (fun _ _ => 0) 129999 (Thrown "offline") c
  = (Normal cached, c)
  /\ Contacts.loadChatsCache (fun _ _ => 0) 130000 (Thrown "offline") c
     = (Thrown "offline", c).
Proof.
  intros cached c. split.
  - apply (proj1 (chats_cache_window (fun _ _ => 0) 129999 c) cached 100000);
      (reflexivity || lia).
  - apply (proj2 (proj2 (chats_cache_window (fun _ _ => 0) 130000 c))
             "offline" cached 100000); (reflexivity || lia).
Defined.

Lemma contacts_served_from_cache_witness :
  Contacts.get_contacts (fun _ _ => 0) true 129999 (Thrown "offline")
    (snd (Contacts.get_contacts (fun _ _ => 0) true 100000
            (Normal [Contacts.mkChat "120@g.us" "Family" "120" true false])
            (Contacts.mkCache None None)))
  = Contacts.get_contacts (fun _ _ => 0) true 100000
      (Normal [Contacts.mkChat "120@g.us" "Family" "120" true false])
      (Contacts.mkCache None None).
Proof.
  apply (proj1 (proj2 (contacts_served_from_cache (fun _ _ => 0) 100000 129999
                         [Contacts.mkChat "120@g.us" "Family" "120" true false]
                         (Contacts.mkCache None None) eq_refl
                         ltac:(discriminate) eq_refl))).
Defined.

(** ** The observers after a run of the dispatcher *)

Lemma loop_observers (tr : Transport) (snapshot : list Row) :
  forall w : World,
  (existsb tr snapshot = false ->
   wsLog (fold_left (send_one tr) snapshot w) = wsLog w
   /\ db (fold_left (send_one tr) snapshot w) = db w)
  /\ (existsb tr snapshot = true ->
      exists log,
        wsLog (fold_left (send_one tr) snapshot w)
        = log ++ [WsScheduled (get_scheduled (fold_left (send_one tr) snapshot w))]).
Proof.
  induction snapshot as [ | msg rest IH ]; intros w.
  - split; [ auto | discriminate ].
  - cbn [existsb fold_left]. set (w1 := send_one tr w msg).
    destruct (IH w1) as [Hnone Hsome].
    destruct (tr msg) eqn:Htr; cbn [orb].
    + assert (Hw1 : wsLog w1 = wsLog w ++ [WsScheduled (select_pending (db w1))]).
      { unfold w1, send_one, after_send. rewrite Htr. reflexivity. }
      split; [ discriminate | ]. intros _.
      destruct (existsb tr rest) eqn:Hrest.
      * apply Hsome. reflexivity.
      * destruct (Hnone eq_refl) as [Hlog Hdb].
        exists (wsLog w). unfold get_scheduled. rewrite Hlog, Hdb. exact Hw1.
    + assert (Hw1 : wsLog w1 = wsLog w /\ db w1 = db w).
      { unfold w1, send_one, after_send. rewrite Htr. split; reflexivity. }
      destruct Hw1 as [Hlog1 Hdb1].
      split; [ | exact Hsome ].
      intros H. destruct (Hnone H) as [Hlog Hdb]. split; congruence.
Qed.

(** After a run of the dispatcher in which a send resolved, the last list
    pushed to the observers is the pending list as the table has it at
    the end of the run; after a run in which none resolved, nothing was
    pushed and the table is as it was. *)
Theorem tick_leaves_observers_in_sync (now : Z) (tr : Transport) (w : World) :
  isReady w = true ->
  (existsb tr (select_due now (db w)) = true ->
   exists log,
     wsLog (cron_tick now tr w)
     = log ++ [WsScheduled (get_scheduled (cron_tick now tr w))])
  /\ (existsb tr (select_due now (db w)) = false ->
      wsLog (cron_tick now tr w) = wsLog w /\ db (cron_tick now tr w) = db w).
Proof.
  intros Hready. unfold cron_tick. rewrite Hready.
  destruct (loop_observers tr (select_due now (db w)) w) as [Hnone Hsome].
  split; assumption.
Qed.

Lemma tick_leaves_observers_in_sync_witness :
  exists log,
    wsLog (cron_tick 10000 (fun m => negb (id m =? 2)) three_due_world)
    = log ++ [WsScheduled
                (get_scheduled
                   (cron_tick 10000 (fun m => negb (id m =? 2)) three_due_world))].
Proof.
  apply (proj1 (tick_leaves_observers_in_sync 10000 (fun m => negb (id m =? 2))
                  three_due_world eq_refl)).
  reflexivity.
Defined.
